(** * AgentLaboratory utilities: DirectoryManager and PromptManager

    A shallow embedding of [utils/prompt_manager.py] and
    [utils/directory_manager.py], with the properties of their
    specification stated and proved over the embedding.

    Conventions of the embedding:
    - a Python [str] is a list of characters; one [ascii] stands for one
      code point below 256 (the Latin-1 range), classified the way
      CPython classifies it;
    - a call that may raise returns an [outcome]: [Return v], [Raise e],
      or [Unmodelled] where the pattern handed to [re] uses syntax this
      model of [re] does not cover;
    - the filesystem is a tree of regular files and directories. *)

From Stdlib Require Import Ascii String ZArith Lia ssreflect.
From stdpp Require Import gmap strings list fin_maps.

Set Default Proof Using "Type".
Set Warnings "-rewrite-rw,-register-all,-clear-no-such-hyp".
Local Open Scope list_scope.

(** ** Characters and strings *)

Abbreviation str := (list ascii).

(** A literal of the source, as a list of characters.  Rocq string
    literals have no escapes, like Python raw strings. *)
Definition lit (s : string) : str := list_ascii_of_string s.

Definition LF : ascii := "010"%char.
Definition CR : ascii := "013"%char.
Definition SP : ascii := " "%char.

Definition code (c : ascii) : nat := nat_of_ascii c.

Definition in_range (lo hi : nat) (c : ascii) : bool :=
  (lo <=? code c) && (code c <=? hi).

(** [str.isspace] on one character, which is also [\s] of [re] on [str]
    patterns: both are CPython's [Py_UNICODE_ISSPACE]. *)
Definition isspace (c : ascii) : bool :=
  in_range 9 13 c || in_range 28 32 c
  || (code c =? 133) || (code c =? 160).

Definition isdecimal (c : ascii) : bool := in_range 48 57 c.

(** [str.isalnum] on one character ([Py_UNICODE_ISALNUM]): letters,
    decimal digits and the other numeric characters of Latin-1. *)
Definition isalnum (c : ascii) : bool :=
  isdecimal c || in_range 65 90 c || in_range 97 122 c
  || (code c =? 170) || (code c =? 178) || (code c =? 179)
  || (code c =? 181) || (code c =? 185) || (code c =? 186)
  || in_range 188 190 c
  || in_range 192 214 c || in_range 216 246 c || in_range 248 255 c.

(** [\w] of [re]: alphanumeric or underscore. *)
Definition isword (c : ascii) : bool := isalnum c || (code c =? 95).

Definition ascii_eqb (a b : ascii) : bool := bool_decide (a = b).

(** *** Methods of [str] *)

(** [s.startswith(p)], also returning what follows the prefix. *)
Fixpoint strip_prefix (p s : str) : option str :=
  match p, s with
  | [], _ => Some s
  | a :: p', b :: s' => if ascii_eqb a b then strip_prefix p' s' else None
  | _ :: _, [] => None
  end.

(** [sub in s] *)
Fixpoint contains (sub s : str) : bool :=
  match strip_prefix sub s with
  | Some _ => true
  | None => match s with [] => false | _ :: s' => contains sub s' end
  end.

(** [s.count(c)] for a one-character [c] *)
Definition count_char (c : ascii) (s : str) : nat :=
  length (filter (λ x, x = c) s).

(** [s.lstrip()], [s.rstrip()], [s.strip()] *)
Fixpoint lstrip (s : str) : str :=
  match s with
  | c :: s' => if isspace c then lstrip s' else s
  | [] => []
  end.

Definition rstrip (s : str) : str := reverse (lstrip (reverse s)).

Definition strip (s : str) : str := rstrip (lstrip s).

(** [s.split()]: the maximal runs of non-whitespace characters.  [cur]
    is the word being read, reversed. *)
Fixpoint split_go (cur : str) (s : str) : list str :=
  match s with
  | [] => match cur with [] => [] | _ => [reverse cur] end
  | c :: s' =>
      if isspace c
      then match cur with
           | [] => split_go [] s'
           | _ => reverse cur :: split_go [] s'
           end
      else split_go (c :: cur) s'
  end.

Definition split (s : str) : list str := split_go [] s.

(** [sep.join(words)] *)
Fixpoint join (sep : str) (words : list str) : str :=
  match words with
  | [] => []
  | [w] => w
  | w :: ws => w ++ sep ++ join sep ws
  end.

(** Line boundaries of [str.splitlines]: LF, VT, FF, CR, FS, GS, RS and
    NEL; CR LF counts as one boundary. *)
Definition islinebreak (c : ascii) : bool :=
  in_range 10 13 c || in_range 28 30 c || (code c =? 133).

Fixpoint splitlines_go (cur : str) (s : str) : list str :=
  match s with
  | [] => match cur with [] => [] | _ => [reverse cur] end
  | c :: s' =>
      if islinebreak c
      then match s' with
           | d :: s'' =>
               if ascii_eqb c CR && ascii_eqb d LF
               then reverse cur :: splitlines_go [] s''
               else reverse cur :: splitlines_go [] s'
           | [] => [reverse cur]
           end
      else splitlines_go (c :: cur) s'
  end.

Definition splitlines (s : str) : list str := splitlines_go [] s.

(** [s[:n]] for an integer [n]: the first [n] characters, or all but the
    last [-n] when [n] is negative. *)
Definition slice_to (s : str) (n : Z) : str :=
  if (0 <=? n)%Z then take (Z.to_nat n) s
  else take (length s - Z.to_nat (- n)) s.

(** ** Outcomes of calls *)

(** The exceptions that reach a caller of [re]: [re.error], raised when
    a pattern does not compile, and [IndexError], raised by [Match.group]
    for a group the pattern does not have. *)
Inductive exn : Type :=
  | ReError
  | IndexError.

Inductive outcome (A : Type) : Type :=
  | Return (a : A)
  | Raise (e : exn)
  | Unmodelled.
Arguments Return {A} a.
Arguments Raise {A} e.
Arguments Unmodelled {A}.

#[global] Instance outcome_ret : MRet outcome := λ A a, Return a.

#[global] Instance outcome_bind : MBind outcome := λ A B f m,
  match m with
  | Return a => f a
  | Raise e => Raise e
  | Unmodelled => Unmodelled
  end.

(** ** The part of Python's [re] the source relies on

    [compile] follows the parser of CPython's [re] on the syntax that it
    covers: literals, [.], the escapes [\w \W \s \S \d \D \n \t \r \f \v]
    and escaped punctuation, character sets with ranges and negation,
    capturing and [(?:...)] groups, [|], and the quantifiers [* + ?] with
    their lazy forms.  A pattern it rejects raises [re.error]; a pattern
    that uses anything else (anchors, counted repetition, possessive
    quantifiers, the other [(?...)] forms and alphanumeric escapes) is
    [Unmodelled].  Matching is the backtracking search of [re], leftmost
    and by priority. *)
Module Re.

Inductive category : Type := Word | Space | Digit.

Inductive set_item : Type :=
  | SChar (c : ascii)
  | SRange (lo hi : ascii)
  | SCat (neg : bool) (cat : category).

Inductive regex : Type :=
  | Eps
  | Lit (c : ascii)
  | Dot (dotall : bool)
  | Set_ (neg : bool) (items : list set_item)
  | Cat (r1 r2 : regex)
  | Alt (r1 r2 : regex)
  | Opt (greedy : bool) (r : regex)
  | Star (greedy : bool) (r : regex)
  | Plus (greedy : bool) (r : regex)
  | Group (n : nat) (r : regex).

(** A compiled pattern: its expression and its number of groups. *)
Record pattern : Type := Pattern { p_re : regex; p_groups : nat }.

(** *** Parsing *)

Inductive esc : Type :=
  | EscCat (neg : bool) (cat : category)
  | EscChar (c : ascii)
  | EscOther.

Definition is_ascii_alnum (c : ascii) : bool :=
  in_range 48 57 c || in_range 65 90 c || in_range 97 122 c.

(** The character after a backslash. *)
Definition escape (c : ascii) : esc :=
  if ascii_eqb c "w" then EscCat false Word
  else if ascii_eqb c "W" then EscCat true Word
  else if ascii_eqb c "s" then EscCat false Space
  else if ascii_eqb c "S" then EscCat true Space
  else if ascii_eqb c "d" then EscCat false Digit
  else if ascii_eqb c "D" then EscCat true Digit
  else if ascii_eqb c "n" then EscChar LF
  else if ascii_eqb c "t" then EscChar "009"
  else if ascii_eqb c "r" then EscChar CR
  else if ascii_eqb c "f" then EscChar "012"
  else if ascii_eqb c "v" then EscChar "011"
  else if is_ascii_alnum c then EscOther
  else EscChar c.

(** An enclosing level of the pattern: the group being read ([Some n]
    when it captures), and the alternatives and the items read so far
    at that level, both most recent first. *)
Definition frame : Type := option nat * list regex * list regex.

Record pstate : Type := PState {
  p_stack : list frame;
  p_alts : list regex;
  p_seq : list regex;
  p_rep : bool;                                (* the last item is a repeat *)
  p_count : nat;                               (* groups opened so far *)
  p_set : option (bool * list set_item);       (* inside [...] *)
}.

Definition mk_seq (seq : list regex) : regex :=
  foldl (λ acc r, Cat r acc) Eps seq.

Definition mk_alt (alts : list regex) (last : regex) : regex :=
  foldl (λ acc r, Alt r acc) last alts.

Definition close_level (alts seq : list regex) : regex :=
  mk_alt alts (mk_seq seq).

Definition push_item (st : pstate) (r : regex) : pstate :=
  PState (p_stack st) (p_alts st) (r :: p_seq st) false (p_count st) None.

Inductive step_result : Type :=
  | Next (rest : str) (st : pstate)
  | Stop (o : outcome pattern).

Definition reject : step_result := Stop (Raise ReError).

Definition quantify (q : ascii) (greedy : bool) (r : regex) : regex :=
  if ascii_eqb q "*" then Star greedy r
  else if ascii_eqb q "+" then Plus greedy r
  else Opt greedy r.

Definition is_quantifier (c : ascii) : bool :=
  ascii_eqb c "*" || ascii_eqb c "+" || ascii_eqb c "?".

(** One item of a character set, [neg] and [items] being the set read
    so far. *)
Definition step_set (neg : bool) (items : list set_item)
    (c : ascii) (rest : str) (st : pstate) : step_result :=
  let inset its := PState (p_stack st) (p_alts st) (p_seq st) false
                          (p_count st) (Some (neg, its)) in
  let item_of e := match e with
                   | EscCat n cat => Some (SCat n cat)
                   | EscChar a => Some (SChar a)
                   | EscOther => None
                   end in
  let after (e : esc) (rest1 : str) : step_result :=
    match e, rest1 with
    | EscOther, _ => Stop Unmodelled
    | _, "-"%char :: [] => reject        (* unterminated character set *)
    | _, "-"%char :: that :: rest2 =>
        if ascii_eqb that "]" then
          match item_of e with
          | Some it =>
              Next rest2 (push_item st (Set_ neg (reverse (SChar "-" :: it :: items))))
          | None => Stop Unmodelled
          end
        else
          let hi := if ascii_eqb that "\"
                    then match rest2 with
                         | [] => None
                         | e2 :: rest3 => Some (escape e2, rest3)
                         end
                    else Some (EscChar that, rest2) in
          match e, hi with
          | _, None => reject            (* bad escape (end of pattern) *)
          | _, Some (EscOther, _) => Stop Unmodelled
          | EscChar lo, Some (EscChar h, rest3) =>
              if code lo <=? code h
              then Next rest3 (inset (SRange lo h :: items))
              else reject                (* bad character range *)
          | _, Some _ => reject          (* bad character range *)
          end
    | _, _ =>
        match item_of e with
        | Some it => Next rest1 (inset (it :: items))
        | None => Stop Unmodelled
        end
    end in
  if ascii_eqb c "]" && negb (bool_decide (length items = 0)) then
    Next rest (push_item st (Set_ neg (reverse items)))
  else if ascii_eqb c "\" then
    match rest with
    | [] => reject                       (* bad escape (end of pattern) *)
    | e :: rest1 => after (escape e) rest1
    end
  else after (EscChar c) rest.

(** One step of the parser on what is left of the pattern. *)
Definition step (dotall : bool) (p : str) (st : pstate) : step_result :=
  match p_set st, p with
  | Some _, [] => reject                   (* unterminated character set *)
  | Some (neg, items), c :: rest => step_set neg items c rest st
  | None, [] =>
      match p_stack st with
      | [] => Stop (Return (Pattern (close_level (p_alts st) (p_seq st))
                                    (p_count st)))
      | _ :: _ => reject                   (* missing ), unterminated subpattern *)
      end
  | None, c :: rest =>
      if ascii_eqb c "\" then
        match rest with
        | [] => reject                     (* bad escape (end of pattern) *)
        | e :: rest1 =>
            match escape e with
            | EscCat n cat => Next rest1 (push_item st (Set_ false [SCat n cat]))
            | EscChar a => Next rest1 (push_item st (Lit a))
            | EscOther => Stop Unmodelled
            end
        end
      else if ascii_eqb c "." then Next rest (push_item st (Dot dotall))
      else if ascii_eqb c "[" then
        let inset neg := PState (p_stack st) (p_alts st) (p_seq st) false
                                (p_count st) (Some (neg, [])) in
        match rest with
        | "^"%char :: rest1 => Next rest1 (inset true)
        | _ => Next rest (inset false)
        end
      else if ascii_eqb c "(" then
        let enter g n :=
          PState ((g, p_alts st, p_seq st) :: p_stack st) [] [] false n None in
        match rest with
        | "?"%char :: ":"%char :: rest1 => Next rest1 (enter None (p_count st))
        | "?"%char :: _ => Stop Unmodelled
        | _ => Next rest (enter (Some (S (p_count st))) (S (p_count st)))
        end
      else if ascii_eqb c ")" then
        match p_stack st with
        | [] => reject                     (* unbalanced parenthesis *)
        | (g, alts, seq) :: stack =>
            let r := close_level (p_alts st) (p_seq st) in
            let item := match g with Some n => Group n r | None => r end in
            Next rest (PState stack alts (item :: seq) false (p_count st) None)
        end
      else if ascii_eqb c "|" then
        Next rest (PState (p_stack st) (mk_seq (p_seq st) :: p_alts st) []
                          false (p_count st) None)
      else if is_quantifier c then
        match p_seq st with
        | [] => reject                     (* nothing to repeat *)
        | r :: seq =>
            if p_rep st then reject        (* multiple repeat *)
            else
              let repeat greedy :=
                PState (p_stack st) (p_alts st) (quantify c greedy r :: seq)
                       true (p_count st) None in
              match rest with
              | "?"%char :: rest1 => Next rest1 (repeat false)
              | "+"%char :: _ => Stop Unmodelled
              | _ => Next rest (repeat true)
              end
        end
      else if ascii_eqb c "{" || ascii_eqb c "^" || ascii_eqb c "$" then
        Stop Unmodelled
      else Next rest (push_item st (Lit c))
  end.

Fixpoint run (fuel : nat) (dotall : bool) (p : str) (st : pstate)
    : outcome pattern :=
  match fuel with
  | 0 => Unmodelled
  | S fuel' =>
      match step dotall p st with
      | Stop o => o
      | Next rest st' => run fuel' dotall rest st'
      end
  end.

Definition init : pstate := PState [] [] [] false 0 None.

(** [re.compile(p, flags)], [dotall] telling whether [re.DOTALL] is
    among the flags.  Every step reads at least one character, so the
    fuel is never used up. *)
Definition compile (dotall : bool) (p : str) : outcome pattern :=
  run (S (length p)) dotall p init.

(** *** Matching *)

Definition category_has (cat : category) (c : ascii) : bool :=
  match cat with
  | Word => isword c
  | Space => isspace c
  | Digit => isdecimal c
  end.

Definition item_has (it : set_item) (c : ascii) : bool :=
  match it with
  | SChar a => ascii_eqb a c
  | SRange lo hi => (code lo <=? code c) && (code c <=? code hi)
  | SCat neg cat => xorb neg (category_has cat c)
  end.

Definition set_has (neg : bool) (items : list set_item) (c : ascii) : bool :=
  xorb neg (existsb (λ it, item_has it c) items).

(** The text of the groups that took part in the match. *)
Abbreviation captures := (gmap nat str).

(** What is left of the text and the groups so far. *)
Abbreviation cont := (str → captures → option (str * captures)).

(** Repetition of [body].  An iteration that matches nothing ends the
    repetition. *)
Fixpoint repeat (body : cont → cont) (greedy : bool) (k : cont)
    (fuel : nat) (s : str) (caps : captures) : option (str * captures) :=
  match fuel with
  | 0 => k s caps
  | S fuel' =>
      let again :=
        body (λ s' caps', if length s' <? length s
                          then repeat body greedy k fuel' s' caps'
                          else k s' caps') s caps in
      if greedy
      then match again with Some m => Some m | None => k s caps end
      else match k s caps with Some m => Some m | None => again end
  end.

(** [mt r k s caps]: match [r] at the head of [s], then [k] on the
    rest; alternatives are tried in the order of [re]. *)
Fixpoint mt (r : regex) (k : cont) (s : str) (caps : captures)
    : option (str * captures) :=
  match r with
  | Eps => k s caps
  | Lit c =>
      match s with
      | a :: s' => if ascii_eqb a c then k s' caps else None
      | [] => None
      end
  | Dot dotall =>
      match s with
      | a :: s' => if dotall || negb (ascii_eqb a LF) then k s' caps else None
      | [] => None
      end
  | Set_ neg items =>
      match s with
      | a :: s' => if set_has neg items a then k s' caps else None
      | [] => None
      end
  | Cat r1 r2 => mt r1 (mt r2 k) s caps
  | Alt r1 r2 =>
      match mt r1 k s caps with
      | Some m => Some m
      | None => mt r2 k s caps
      end
  | Opt greedy r1 =>
      if greedy
      then match mt r1 k s caps with Some m => Some m | None => k s caps end
      else match k s caps with Some m => Some m | None => mt r1 k s caps end
  | Star greedy r1 => repeat (mt r1) greedy k (S (length s)) s caps
  | Plus greedy r1 =>
      mt r1 (λ s' caps', repeat (mt r1) greedy k (S (length s')) s' caps')
         s caps
  | Group n r1 =>
      mt r1 (λ s' caps',
               k s' (<[n := take (length s - length s') s]> caps')) s caps
  end.

(** A match object: the text before the match, the match, the text
    after it, and the groups. *)
Record match_obj : Type := Match {
  m_pre : str;
  m_whole : str;
  m_post : str;
  m_caps : captures;
  m_groups : nat;
}.

(** A match that starts at the head of [s].  With [must_advance] an
    empty match is refused. *)
Definition match_here (r : regex) (must_advance : bool) (s : str)
    : option (str * captures) :=
  mt r (λ s' caps, if must_advance && (length s' =? length s)
                   then None else Some (s', caps)) s ∅.

(** The leftmost match in [s], [pre] being the text already passed,
    reversed. *)
Fixpoint search_go (p : pattern) (must_advance : bool) (pre s : str)
    : option match_obj :=
  match match_here (p_re p) must_advance s with
  | Some (post, caps) =>
      Some (Match (reverse pre) (take (length s - length post) s) post caps
                  (p_groups p))
  | None =>
      match s with
      | [] => None
      | c :: s' => search_go p false (c :: pre) s'
      end
  end.

(** [re.search(pattern, text, flags)] *)
Definition search (dotall : bool) (pat text : str) : outcome (option match_obj) :=
  p ← compile dotall pat; mret (search_go p false [] text).

(** [re.match(pattern, text, flags)] *)
Definition match_ (dotall : bool) (pat text : str) : outcome (option match_obj) :=
  p ← compile dotall pat;
  mret (match match_here (p_re p) false text with
        | Some (post, caps) =>
            Some (Match [] (take (length text - length post) text) post caps
                        (p_groups p))
        | None => None
        end).

(** [m.group(n)]: the text of group [n], [None] when the group took no
    part in the match. *)
Definition group (m : match_obj) (n : nat) : outcome (option str) :=
  if n =? 0 then Return (Some (m_whole m))
  else if n <=? m_groups m then Return (m_caps m !! n)
  else Raise IndexError.

(** The loop of [re.sub] for a replacement without backslashes: every
    match, from left to right, gives way to [repl]; after an empty
    match the next one has to advance. *)
Fixpoint sub_go (fuel : nat) (p : pattern) (repl : str)
    (must_advance : bool) (s : str) : str :=
  match fuel with
  | 0 => s
  | S fuel' =>
      match search_go p must_advance [] s with
      | None => s
      | Some m =>
          m_pre m ++ repl
            ++ sub_go fuel' p repl (bool_decide (length (m_whole m) = 0)) (m_post m)
      end
  end.

(** [re.sub(pattern, repl, text)] *)
Definition sub (pat repl text : str) : outcome str :=
  p ← compile false pat;
  mret (sub_go (2 * length text + 2) p repl false text).

End Re.

(** ** [utils/prompt_manager.py] *)
Module PromptManager.

Definition QUOTE : ascii := "034"%char.

(** [clean_search_query(query)] *)
Definition clean_search_query (query : str) : outcome str :=
  (* Remove special characters *)
  query ← Re.sub (lit "[^\w\s-]") [] query;
  (* Normalize whitespace *)
  mret (join (lit " ") (split query)).

(** The pattern of [extract_code_block]: the format string with its
    field filled in. *)
Definition code_block_pattern (language : option str) : str :=
  lit "```(?:"
    ++ match language with
       | Some (c :: l) => c :: l
       | _ => lit "\w*"
       end
    ++ lit ")?\n(.*?)\n```".

(** [extract_code_block(text, language)] *)
Definition extract_code_block (text : str) (language : option str)
    : outcome (option str) :=
  m ← Re.search true (code_block_pattern language) text;
  match m with
  | Some m => Re.group m 1
  | None => mret None
  end.

Definition command_pattern (command : str) : str :=
  lit "```" ++ command ++ lit "\n(.*?)\n```".

(** [extract_command(text, command)] *)
Definition extract_command (text command : str) : outcome (option str) :=
  m ← Re.search true (command_pattern command) text;
  match m with
  | Some m => Re.group m 1
  | None => mret None
  end.

(** [validate_prompt(prompt)] *)
Definition validate_prompt (prompt : str) : outcome (list string) :=
  let issues := [] in
  (* Check for missing closing quotes *)
  let issues :=
    if negb (count_char QUOTE prompt mod 2 =? 0)
    then issues ++ ["Mismatched quotes"%string] else issues in
  (* Check for inconsistent line endings *)
  let issues :=
    if contains [CR; LF] prompt && contains [LF] prompt
    then issues ++ ["Mixed line endings"%string] else issues in
  (* Check for very long lines *)
  let issues :=
    if existsb (λ line, 120 <? length line) (splitlines prompt)
    then issues ++ ["Lines exceed recommended length"%string] else issues in
  (* Check for common placeholder patterns *)
  m ← Re.search false (lit "<[^>]+>") prompt;
  let issues :=
    if bool_decide (is_Some m)
    then issues ++ ["Unreplaced placeholders found"%string] else issues in
  mret issues.

(** [format_error_message(error)] *)
Definition format_error_message (error : str) : outcome str :=
  (* Remove unnecessary details *)
  error ← Re.sub (lit "File " ++ [QUOTE] ++ lit ".*?" ++ [QUOTE]
                    ++ lit ", line \d+,") [] error;
  (* Normalize whitespace *)
  let error := join (lit " ") (split error) in
  mret (strip error).

(** [format_feedback(feedback, max_length)] *)
Definition format_feedback (feedback : str) (max_length : Z) : str :=
  let feedback :=
    if (max_length <? Z.of_nat (length feedback))%Z
    then slice_to feedback max_length ++ lit "..."
    else feedback in
  strip feedback.

(** [build_system_prompt(role, task, notes)] *)
Definition build_system_prompt (role task : str) (notes : option (list str))
    : str :=
  let prompt_parts :=
    [lit "You are " ++ role; lit "Task instructions: " ++ task] in
  let prompt_parts :=
    match notes with
    | Some (n :: ns) =>
        prompt_parts ++ [lit "Notes:"] ++ map (λ note, lit "- " ++ note) (n :: ns)
    | _ => prompt_parts
    end in
  join [LF; LF] prompt_parts.

(** [validate_response(response, expected_pattern)]: an exception of
    [re.match] is caught and logged, and the answer is [False]. *)
Definition validate_response (response expected_pattern : str) : outcome bool :=
  match Re.match_ true expected_pattern response with
  | Return m => Return (bool_decide (is_Some m))
  | Raise _ => Return false
  | Unmodelled => Unmodelled
  end.

End PromptManager.

(** ** The filesystem

    A tree of regular files and directories; a directory has a mode and
    named entries.  A path is the list of the names from the root.  A
    call answers [None] where it raises [OSError], which it does where
    the shape of the tree makes the system call fail; symbolic links,
    special files and access rights are outside the model. *)
Module FS.

Inductive node : Type :=
  | File
  | Dir (mode : N) (entries : gmap string node).

Abbreviation path := (list string).

Fixpoint lookup (p : path) (n : node) : option node :=
  match p with
  | [] => Some n
  | c :: p' =>
      match n with
      | Dir _ es => es !! c ≫= lookup p'
      | File => None
      end
  end.

(** [Path.exists], [Path.is_file], [Path.is_dir] *)
Definition exists_ (p : path) (n : node) : bool :=
  match lookup p n with Some _ => true | None => false end.

Definition is_file (p : path) (n : node) : bool :=
  match lookup p n with Some File => true | _ => false end.

Definition is_dir (p : path) (n : node) : bool :=
  match lookup p n with Some (Dir _ _) => true | _ => false end.

(** The directories [p], one inside the other, all empty but for the
    next one. *)
Definition chain (mode : N) (p : path) : node :=
  foldr (λ c inner, Dir mode {[ c := inner ]}) (Dir mode ∅) p.

(** [Path.mkdir(parents=True, exist_ok=True)]: the missing directories
    of [p] are created with the mode the umask leaves of 0o777; the
    call fails when a name on the way, or [p] itself, is a regular
    file. *)
Fixpoint mkdir_p (umask : N) (p : path) (n : node) : option node :=
  match n with
  | File => None
  | Dir m es =>
      match p with
      | [] => Some n
      | c :: p' =>
          match es !! c with
          | Some child =>
              child' ← mkdir_p umask p' child;
              Some (Dir m (<[c := child']> es))
          | None =>
              Some (Dir m (<[c := chain (N.ldiff 511 umask) p']> es))
          end
      end
  end.

(** [Path.chmod(mode)] *)
Fixpoint chmod (mode : N) (p : path) (n : node) : option node :=
  match p with
  | [] => match n with
          | Dir _ es => Some (Dir mode es)
          | File => Some File
          end
  | c :: p' =>
      match n with
      | Dir m es =>
          child ← es !! c;
          child' ← chmod mode p' child;
          Some (Dir m (<[c := child']> es))
      | File => None
      end
  end.

(** [Path.iterdir]: the names in the directory [p]. *)
Definition iterdir (p : path) (n : node) : option (list string) :=
  match lookup p n with
  | Some (Dir _ es) => Some (elements (dom es))
  | _ => None
  end.

(** The entry [p] taken out of its directory. *)
Fixpoint remove (p : path) (n : node) : option node :=
  match p, n with
  | [c], Dir m es =>
      match es !! c with
      | Some _ => Some (Dir m (delete c es))
      | None => None
      end
  | c :: p', Dir m es =>
      child ← es !! c;
      child' ← remove p' child;
      Some (Dir m (<[c := child']> es))
  | _, _ => None
  end.

(** [Path.unlink]: [p] has to be a regular file. *)
Definition unlink (p : path) (n : node) : option node :=
  if is_file p n then remove p n else None.

(** [shutil.rmtree]: [p] has to be a directory; it goes with all that
    is below it. *)
Definition rmtree (p : path) (n : node) : option node :=
  if is_dir p n then remove p n else None.

End FS.

(** ** [utils/directory_manager.py] *)
Module DirectoryManager.
Import FS.

Inductive level : Type := INFO | ERROR.

(** The messages of the logger, with the values they are formatted
    from. *)
Inductive message : Type :=
  | DirectoryCreated (p : path)      (* Directory {path} created/verified successfully *)
  | FailedToCreate (p : path)        (* Failed to create directory {path}: {e} *)
  | UnknownDirectoryType (dir_type : string)  (* Unknown directory type: {dir_type} *)
  | CleanedDirectory (p : path)      (* Cleaned directory {path} *)
  | FailedToClean (p : path).        (* Failed to clean directory {path}: {e} *)

(** What the calls act on: the filesystem and the log. *)
Record state : Type := State { fs : node; log : list (level * message) }.

Definition logger (l : level) (m : message) (st : state) : state :=
  State (fs st) (log st ++ [(l, m)]).

(** [self]: the base directory and the table set up by [__init__]. *)
Record manager : Type := Manager {
  base_dir : path;
  required_dirs : list (string * path);
}.

Definition init (base_dir : path) : manager :=
  Manager base_dir
    [("research"%string, base_dir ++ ["research_dir"%string]);
     ("source"%string, base_dir ++ ["research_dir"%string; "src"%string]);
     ("tex"%string, base_dir ++ ["research_dir"%string; "tex"%string]);
     ("output"%string, base_dir ++ ["output"%string]);
     ("state"%string, base_dir ++ ["state_saves"%string])].

(** [d.get(key)] on a table in insertion order *)
Fixpoint get (key : string) (d : list (string * path)) : option path :=
  match d with
  | [] => None
  | (k, v) :: d' => if bool_decide (k = key) then Some v else get key d'
  end.

(** The body of the loop of [setup_directories], for one entry of the
    table; [umask] is the umask of the process. *)
Definition setup_entry (umask : N) (acc : gmap string bool * state)
    (entry : string * path) : gmap string bool * state :=
  let '(results, st) := acc in
  let '(name, path) := entry in
  match mkdir_p umask path (fs st) with
  | Some fs1 =>
      (* Ensure write permissions *)
      match chmod 511 path fs1 with
      | Some fs2 =>
          (<[name := true]> results,
           logger INFO (DirectoryCreated path) (State fs2 (log st)))
      | None =>
          (<[name := false]> results,
           logger ERROR (FailedToCreate path) (State fs1 (log st)))
      end
  | None =>
      (<[name := false]> results, logger ERROR (FailedToCreate path) st)
  end.

(** [setup_directories()] *)
Definition setup_directories (umask : N) (self : manager) (st : state)
    : gmap string bool * state :=
  foldl (setup_entry umask) (∅, st) (required_dirs self).

(** The loop of [cleanup_directory] over the entries of [path]: the
    filesystem it leaves, and whether it ran to its end. *)
Fixpoint remove_contents (path : path) (items : list string) (n : node)
    : bool * node :=
  match items with
  | [] => (true, n)
  | name :: items' =>
      let item := path ++ [name] in
      if is_file item n then
        match unlink item n with
        | Some n' => remove_contents path items' n'
        | None => (false, n)
        end
      else if is_dir item n then
        match rmtree item n with
        | Some n' => remove_contents path items' n'
        | None => (false, n)
        end
      else remove_contents path items' n
  end.

(** [cleanup_directory(dir_type)] *)
Definition cleanup_directory (self : manager) (dir_type : string)
    (st : state) : bool * state :=
  match get dir_type (required_dirs self) with
  | None => (false, logger ERROR (UnknownDirectoryType dir_type) st)
  | Some path =>
      if exists_ path (fs st) then
        (* Remove contents but keep directory *)
        match iterdir path (fs st) with
        | Some items =>
            match remove_contents path items (fs st) with
            | (true, fs') =>
                (true, logger INFO (CleanedDirectory path) (State fs' (log st)))
            | (false, fs') =>
                (false, logger ERROR (FailedToClean path) (State fs' (log st)))
            end
        | None => (false, logger ERROR (FailedToClean path) st)
        end
      else (false, st)
  end.

(** [get_path(dir_type)] *)
Definition get_path (self : manager) (dir_type : string) : option path :=
  get dir_type (required_dirs self).

End DirectoryManager.

(** ** [utils/directory_manager.py]: the other calls

    [ensure_file_directory] and [validate_permissions].  What they log is
    given back as the records the call appends to the log. *)
Module DirectoryChecks.
Import FS DirectoryManager.

Inductive message : Type :=
  | FailedToCreateDirectoryFor (filepath : path)
      (* Failed to create directory for {filepath}: {e} *)
  | PermissionValidationFailed (p : path).
      (* Permission validation failed for {path}: {e} *)

(** [Path.parent]: the path without its last name; the root is its own
    parent. *)
Definition parent (p : path) : path := take (length p - 1) p.






End DirectoryChecks.

(** ** Vocabulary of the properties *)

Definition all_space (s : str) : Prop := Forall (λ c, isspace c = true) s.

Definition no_space (s : str) : Prop := Forall (λ c, isspace c = false) s.

(** A word of [split]: not empty, and without whitespace. *)
Definition is_word (w : str) : Prop := w ≠ [] ∧ no_space w.

(** The characters [clean_search_query] keeps: those of [\w], of [\s],
    and the hyphen. *)
Definition kept (c : ascii) : bool :=
  isword c || isspace c || ascii_eqb "-" c.

(** Every whitespace character of [s] is one space, with a character
    that is not whitespace on either side. *)
Definition single_spaced (s : str) : Prop :=
  ∀ l c t, s = l ++ c :: t → isspace c = true →
    c = SP ∧ (∃ a, last l = Some a ∧ isspace a = false)
           ∧ (∃ b, head t = Some b ∧ isspace b = false).

(** [r] is [s] without the whitespace at its two ends. *)
Definition trimmed_of (s r : str) : Prop :=
  ∃ l t, s = l ++ r ++ t ∧ all_space l ∧ all_space t
         ∧ (∀ c, head r = Some c → isspace c = false)
         ∧ (∀ c, last r = Some c → isspace c = false).

(** A line feed that no carriage return precedes; [prev] tells whether
    the character before is a carriage return. *)
Fixpoint bare_lf_go (prev : bool) (s : str) : bool :=
  match s with
  | [] => false
  | c :: s' => (ascii_eqb c LF && negb prev) || bare_lf_go (ascii_eqb c CR) s'
  end.

Definition bare_lf (s : str) : bool := bare_lf_go false s.

(** The five logical names of the directories. *)
Definition logical_names : list string :=
  ["research"; "source"; "tex"; "output"; "state"]%string.

(** A regular file at [p] or on the way to it. *)
Definition blocked (p : FS.path) (n : FS.node) : Prop :=
  ∃ q, q `prefix_of` p ∧ FS.is_file q n = true.

(** *** Fenced blocks *)

Definition fence : str := lit "```".

(** The line feed and the fence that close a block. *)
Definition closing : str := LF :: fence.

(** The characters that [re] reads as syntax. *)
Definition meta (c : ascii) : bool :=
  existsb (ascii_eqb c) (lit "\.[()|*+?{^$").




(** The expression of the literal characters [w] with [r] after
    them. *)
Definition cat_lits (w : str) (r : Re.regex) : Re.regex :=
  foldr (λ c r, Re.Cat (Re.Lit c) r) r w.

Definition lits (w : str) : Re.regex := cat_lits w Re.Eps.



(** The first suffix of [s] on which [k] answers. *)
Fixpoint first_suffix {A} (k : str → option A) (s : str) : option A :=
  match k s with
  | Some m => Some m
  | None => match s with [] => None | _ :: s' => first_suffix k s' end
  end.

(** What comes before the first [closing] in [s], and what comes after
    it. *)
Fixpoint find_close (s : str) : option (str * str) :=
  match strip_prefix closing s with
  | Some post => Some ([], post)
  | None =>
      match s with
      | [] => None
      | a :: s' =>
          match find_close s' with
          | Some (c, post) => Some (a :: c, post)
          | None => None
          end
      end
  end.





(** *** The filesystem *)

(** The mode of the directory at [p]. *)
Definition mode_of (p : FS.path) (n : FS.node) : option N :=
  match FS.lookup p n with
  | Some (FS.Dir m _) => Some m
  | _ => None
  end.

(** [q] lies below [p], and is not [p]. *)
Definition strictly_below (p q : FS.path) : Prop :=
  ∃ c k, q = p ++ c :: k.

(** [n'] has the regular files and the directories of [n], each where
    it was. *)
Definition keeps_all (n n' : FS.node) : Prop :=
  (∀ q, FS.is_file q n = true → FS.is_file q n' = true)
  ∧ (∀ q, FS.is_dir q n = true → FS.is_dir q n' = true).

(** What a turn of [setup_directories] leaves of an entry that it
    answered with [b]. *)
Definition settled (p : FS.path) (n : FS.node) (b : bool) : Prop :=
  if b then mode_of p n = Some 511%N else blocked p n.


(** *** Patterns of literal characters *)

(** A text that [re] reads letter by letter. *)
Definition literal (w : str) : Prop := Forall (λ c, meta c = false) w.

(** The expression of the pattern of [extract_command]. *)
Definition command_re (command : str) : Re.regex :=
  cat_lits (fence ++ command)
    (Re.Cat (Re.Lit LF)
       (Re.Cat (Re.Group 1 (Re.Cat (Re.Star false (Re.Dot true)) Re.Eps))
          (lits closing))).

(** The block with the tag [command] that opens at the head of [s]: its
    content and what follows it. *)
Definition command_here (command : str) (s : str) : option (str * str) :=
  match strip_prefix (fence ++ command) s with
  | Some (a :: s3) => if ascii_eqb a LF then find_close s3 else None
  | _ => None
  end.

(** [s] past the characters at its head on which [f] holds. *)
Fixpoint skip (f : ascii → bool) (s : str) : str :=
  match s with
  | a :: s' => if f a then skip f s' else s
  | [] => []
  end.

Definition LT : ascii := "<"%char.
Definition GT : ascii := ">"%char.

(** The four issues of [validate_prompt], in the order in which they
    are looked for. *)
Definition all_issues : list string :=
  ["Mismatched quotes"; "Mixed line endings";
   "Lines exceed recommended length"; "Unreplaced placeholders found"]%string.

(** * Properties *)

(** ** Methods of [str] *)

Section StrLemmas.
Implicit Types (s t : str) (c : ascii).

Lemma ascii_eqb_eq (a b : ascii) : ascii_eqb a b = true ↔ a = b.
Proof. unfold ascii_eqb. apply bool_decide_eq_true. Qed.

Lemma ascii_eqb_refl (a : ascii) : ascii_eqb a a = true.
Proof. by apply ascii_eqb_eq. Qed.

Lemma ascii_eqb_neq (a b : ascii) : ascii_eqb a b = false ↔ a ≠ b.
Proof. unfold ascii_eqb. apply bool_decide_eq_false. Qed.

Lemma lstrip_spec s :
  ∃ l, s = l ++ lstrip s ∧ all_space l
       ∧ ∀ c, head (lstrip s) = Some c → isspace c = false.
Proof.
  induction s as [|a s (l & Hs & Hl & Hh)]; simpl.
  - exists []. repeat split; [constructor | done].
  - destruct (isspace a) eqn:Ha.
    + exists (a :: l). repeat split; [by rewrite /= -Hs | by constructor | done].
    + exists []. repeat split; [constructor |].
      intros c [= <-]. done.
Qed.

Lemma rstrip_spec s :
  ∃ r, s = rstrip s ++ r ∧ all_space r
       ∧ ∀ c, last (rstrip s) = Some c → isspace c = false.
Proof.
  unfold rstrip. destruct (lstrip_spec (reverse s)) as (l & Hs & Hl & Hh).
  exists (reverse l). repeat split.
  - by rewrite -reverse_app -Hs reverse_involutive.
  - unfold all_space. by apply Forall_reverse.
  - intros c Hc. apply Hh. by rewrite last_reverse in Hc.
Qed.

Lemma strip_spec s :
  ∃ l r, s = l ++ strip s ++ r ∧ all_space l ∧ all_space r
         ∧ (∀ c, head (strip s) = Some c → isspace c = false)
         ∧ (∀ c, last (strip s) = Some c → isspace c = false).
Proof.
  unfold strip.
  destruct (lstrip_spec s) as (l & Hs & Hl & Hh).
  destruct (rstrip_spec (lstrip s)) as (r & Hs' & Hr & Ht).
  exists l, r. repeat split; try done.
  - by rewrite -Hs'.
  - intros c Hc. apply Hh. rewrite Hs'.
    destruct (rstrip (lstrip s)); [done | exact Hc].
Qed.

Lemma length_strip s : length (strip s) ≤ length s.
Proof.
  destruct (strip_spec s) as (l & r & Hs & _).
  rewrite {2}Hs !length_app. lia.
Qed.

Lemma strip_id s :
  (∀ c, head s = Some c → isspace c = false) →
  (∀ c, last s = Some c → isspace c = false) →
  strip s = s.
Proof.
  intros Hh Ht.
  assert (Hl : ∀ t, (∀ c, head t = Some c → isspace c = false) → lstrip t = t).
  { intros [|a t] H; [done|]. simpl. by rewrite (H a). }
  unfold strip, rstrip. rewrite (Hl s Hh) Hl; [|apply reverse_involutive].
  intros c Hc. apply Ht. by rewrite head_reverse in Hc.
Qed.

End StrLemmas.

Section SplitJoin.
Implicit Types (s t w cur : str) (ws : list str) (c : ascii).

Lemma space_is_space : isspace SP = true.
Proof. reflexivity. Qed.

Lemma split_go_word w cur t :
  no_space w → split_go cur (w ++ t) = split_go (reverse w ++ cur) t.
Proof.
  intros Hw. revert cur. induction Hw as [|a w Ha _ IH]; intros cur; [done|].
  simpl. rewrite Ha IH reverse_cons -app_assoc. done.
Qed.

Lemma split_go_words cur s :
  no_space cur → Forall is_word (split_go cur s).
Proof.
  revert cur. induction s as [|a s IH]; intros cur Hcur; simpl.
  - destruct cur as [|b cur]; [constructor|].
    constructor; [|constructor]. split.
    + rewrite reverse_cons. by destruct (reverse cur).
    + by apply Forall_reverse.
  - destruct (isspace a) eqn:Ha.
    + destruct cur as [|b cur]; [by apply IH; constructor|].
      constructor; [|by apply IH; constructor]. split.
      * rewrite reverse_cons. by destruct (reverse cur).
      * by apply Forall_reverse.
    + apply IH. by constructor.
Qed.

Lemma split_words s : Forall is_word (split s).
Proof. apply split_go_words. constructor. Qed.

(** The characters of the words are characters of the text. *)
Lemma split_go_Forall (P : ascii → Prop) cur s :
  Forall P cur → Forall P s → Forall (Forall P) (split_go cur s).
Proof.
  intros Hcur Hs. revert cur Hcur.
  induction Hs as [|a s Ha _ IH]; intros cur Hcur; simpl.
  - destruct cur; [constructor|].
    constructor; [by apply Forall_reverse | constructor].
  - destruct (isspace a).
    + destruct cur; [by apply IH|].
      constructor; [by apply Forall_reverse | by apply IH].
    + apply IH. by constructor.
Qed.

Lemma join_cons2 sep w w' ws :
  join sep (w :: w' :: ws) = w ++ sep ++ join sep (w' :: ws).
Proof. done. Qed.

Lemma join_Forall (P : ascii → Prop) sep ws :
  Forall P sep → Forall (Forall P) ws → Forall P (join sep ws).
Proof.
  intros Hsep Hws. induction Hws as [|w ws Hw Hws' IH]; [constructor|].
  destruct ws as [|w' ws]; [done|].
  rewrite join_cons2. by rewrite !Forall_app.
Qed.

(** Splitting what [join] made of words gives the words back. *)
Lemma split_join ws : Forall is_word ws → split (join [SP] ws) = ws.
Proof.
  unfold split. induction 1 as [|w ws [Hne Hw] Hws IH]; [done|].
  destruct ws as [|w' ws].
  - simpl. rewrite -{1}(app_nil_r w) split_go_word // app_nil_r /=.
    destruct (reverse w) eqn:E.
    + apply (f_equal reverse) in E. rewrite reverse_involutive in E. done.
    + by rewrite -E reverse_involutive.
  - rewrite join_cons2 split_go_word // app_nil_r.
    change ([SP] ++ ?x) with (SP :: x). cbn [split_go]. rewrite space_is_space.
    destruct (reverse w) eqn:E.
    + apply (f_equal reverse) in E. rewrite reverse_involutive in E. done.
    + by rewrite -E reverse_involutive IH.
Qed.

Lemma join_head_last ws :
  ws ≠ [] → Forall is_word ws →
  ∃ a b, head (join [SP] ws) = Some a ∧ isspace a = false
         ∧ last (join [SP] ws) = Some b ∧ isspace b = false.
Proof.
  intros Hne Hws. induction Hws as [|w ws [Hw Hns] Hws IH]; [done|].
  assert (Hh : ∃ a, head w = Some a ∧ isspace a = false).
  { destruct w as [|a w]; [done|]. exists a. split; [done|].
    by apply Forall_cons in Hns as [? _]. }
  destruct Hh as (a & Ha & Hsa).
  destruct ws as [|w' ws].
  - exists a. destruct (last w) as [b|] eqn:Hb.
    + exists b. repeat split; try done.
      apply last_Some in Hb as [l ->]. apply Forall_app in Hns as [_ Hb].
      by apply Forall_cons in Hb as [? _].
    + apply last_None in Hb. done.
  - destruct IH as (_ & b & _ & _ & Hb & Hsb); [done|].
    exists a, b. rewrite join_cons2. repeat split; try done.
    + destruct w; [done | exact Ha].
    + rewrite app_assoc last_app Hb. done.
Qed.

(** Whitespace in what [join] makes of words is a single space between
    two characters that are not whitespace. *)
Lemma join_spaces ws : Forall is_word ws → single_spaced (join [SP] ws).
Proof.
  intros Hws l c t. revert l. induction Hws as [|w ws [Hw Hns] Hws IH]; intros l E Hc.
  { by destruct l. }
  destruct ws as [|w' ws].
  - simpl in E. rewrite E in Hns. apply Forall_app in Hns as [_ Hns].
    apply Forall_cons in Hns as [Hns _]. congruence.
  - rewrite join_cons2 in E. change ([SP] ++ ?x) with (SP :: x) in E.
    set (rest := join [SP] (w' :: ws)) in *.
    destruct (join_head_last [w]) as (_ & b0 & _ & _ & Hb0 & Hsb0);
      [done | by repeat constructor |]. cbn [join] in Hb0.
    destruct (join_head_last (w' :: ws)) as (a0 & _ & Ha0 & Hsa0 & _);
      [done | done |]. fold rest in Ha0.
    apply app_eq_app in E as [k [[-> E] | [-> E]]].
    + destruct k as [|d k].
      * injection E as -> ->. rewrite app_nil_r in Hb0.
        split; [done|]. split; [by exists b0 | by exists a0].
      * injection E as -> _. apply Forall_app in Hns as [_ Hns].
        apply Forall_cons in Hns as [Hns _]. congruence.
    + destruct k as [|d k].
      * injection E as -> ->. rewrite app_nil_r.
        split; [done|]. split; [by exists b0 | by exists a0].
      * injection E as <- E.
        destruct (IH k E Hc) as (-> & (a & Ha & Hsa) & Hb).
        split; [done|]. split; [|done].
        exists a. rewrite last_app last_cons Ha. done.
Qed.

End SplitJoin.

(** ** [re] on a pattern that is one character set *)

Section SetPattern.
Import Re.
Variables (neg : bool) (items : list set_item) (groups : nat).

Let P : pattern := Pattern (Cat (Set_ neg items) Eps) groups.
Let hit (c : ascii) : bool := set_has neg items c.

Lemma match_here_set ma a s :
  match_here (p_re P) ma (a :: s) = if hit a then Some (s, ∅) else None.
Proof.
  unfold match_here, hit. simpl. destruct (set_has neg items a); [|done].
  replace (length s =? S (length s)) with false; [by rewrite andb_false_r|].
  symmetry. apply Nat.eqb_neq. lia.
Qed.

Lemma match_here_set_nil ma : match_here (p_re P) ma [] = None.
Proof. done. Qed.

(** The search stops at the first character of the set. *)
Lemma search_go_set s : ∀ ma pre,
  (search_go P ma pre s = None ∧ Forall (λ c, hit c = false) s)
  ∨ ∃ k a post, s = k ++ a :: post ∧ Forall (λ c, hit c = false) k
      ∧ hit a = true
      ∧ search_go P ma pre s = Some (Match (reverse pre ++ k) [a] post ∅ groups).
Proof.
  induction s as [|a s IH]; intros ma pre.
  - left. split; [done | constructor].
  - cbn [search_go]. rewrite match_here_set. destruct (hit a) eqn:Ha.
    + right. exists [], a, s. rewrite app_nil_r. repeat split; [constructor | done |].
      cbn [p_groups P]. do 3 f_equal.
      replace (length (a :: s) - length s) with 1 by (simpl; lia). done.
    + destruct (IH false (a :: pre)) as [[E Hs] | (k & b & post & -> & Hk & Hb & E)].
      * left. split; [done | by constructor].
      * right. exists (a :: k), b, post. repeat split; [by constructor | done |].
        rewrite E reverse_cons -app_assoc. done.
Qed.

(** Substituting nothing for the set deletes its characters. *)
Lemma sub_go_set fuel : ∀ s ma,
  length s < fuel →
  sub_go fuel P [] ma s = filter (λ c, negb (hit c)) s.
Proof.
  induction fuel as [|fuel IH]; intros s ma Hlen; [lia|].
  cbn [sub_go].
  assert (Hkeep : ∀ k, Forall (λ c, hit c = false) k
                       → filter (λ c, negb (hit c)) k = k).
  { induction 1 as [|c k Hc _ IHk]; [done|].
    rewrite filter_cons_True; [by rewrite Hc | by rewrite IHk]. }
  destruct (search_go_set s ma []) as [[-> Hs] | (k & a & post & -> & Hk & Ha & ->)].
  - by rewrite Hkeep.
  - cbn [m_pre m_whole m_post]. rewrite app_nil_l IH.
    { rewrite length_app /= in Hlen. lia. }
    rewrite filter_app filter_cons_False; [rewrite Ha; simpl; tauto|].
    rewrite (Hkeep k Hk). done.
Qed.

End SetPattern.

(** ** [PromptManager] *)

Section CleanSearchQuery.
Import PromptManager.

Lemma compile_special :
  Re.compile false (lit "[^\w\s-]")
  = Return (Re.Pattern
              (Re.Cat (Re.Set_ true [Re.SCat false Re.Word;
                                     Re.SCat false Re.Space; Re.SChar "-"])
                      Re.Eps) 0).
Proof. reflexivity. Qed.

(** The substitution of [clean_search_query] keeps the characters of
    [kept], in their order. *)
Lemma sub_special q :
  Re.sub (lit "[^\w\s-]") [] q = Return (filter kept q).
Proof.
  unfold Re.sub. rewrite compile_special. cbn [mbind outcome_bind mret outcome_ret].
  rewrite sub_go_set; [lia|]. f_equal. apply list_filter_iff. intros c.
  unfold kept, Re.set_has. simpl. rewrite orb_false_r negb_involutive.
  by rewrite orb_assoc.
Qed.

Lemma clean_search_query_eq q :
  clean_search_query q = Return (join [SP] (split (filter kept q))).
Proof. unfold clean_search_query. by rewrite sub_special. Qed.

Lemma filter_kept_id s :
  Forall (λ c, isword c ∨ c = SP ∨ c = "-"%char) s → filter kept s = s.
Proof.
  induction 1 as [|c s Hc _ IH]; [done|].
  rewrite filter_cons_True ?IH //. unfold kept.
  destruct Hc as [Hc | [-> | ->]]; [|done..].
  destruct (isword c); done.
Qed.

Lemma clean_chars q :
  Forall (λ c, isword c ∨ c = SP ∨ c = "-"%char) (join [SP] (split (filter kept q))).
Proof.
  apply join_Forall; [by repeat constructor; right; left|].
  assert (H1 : Forall (Forall (λ c, Is_true (kept c))) (split (filter kept q))).
  { apply split_go_Forall; [constructor|].
    apply Forall_forall. intros c Hc. by apply list_elem_of_filter in Hc as [? _]. }
  pose proof (split_words (filter kept q)) as H2.
  induction H1 as [|w ws Hw _ IH]; [constructor|].
  apply Forall_cons in H2 as [[_ Hns] H2]. constructor; [|by apply IH].
  clear IH H2. induction Hw as [|c w Hc _ IHw]; [constructor|].
  apply Forall_cons in Hns as [Hsp Hns]. constructor; [|by apply IHw].
  unfold kept in Hc. rewrite Hsp orb_false_r in Hc.
  destruct (isword c); [by left|]. right; right.
  simpl in Hc. apply Is_true_eq_true, ascii_eqb_eq in Hc. done.
Qed.

End CleanSearchQuery.

(** C3, as the code has it: the query that comes back holds only word
    characters (alphanumerics and the underscore), hyphens and single
    spaces that stand between two other characters; it is made of the
    words of the query once every character outside of word characters,
    whitespace and the hyphen is taken out, so that runs of hyphens stay
    as they are and whitespace at either end goes; the query
    [a!! b--c  d] becomes [a b--c d]. *)
Theorem clean_search_query_output (q : str) :
  ∃ r, PromptManager.clean_search_query q = Return r
       ∧ Forall (λ c, isword c ∨ c = SP ∨ c = "-"%char) r
       ∧ single_spaced r
       ∧ split r = split (filter kept q)
       ∧ PromptManager.clean_search_query (lit "a!! b--c  d")
         = Return (lit "a b--c d").
Proof.
  exists (join [SP] (split (filter kept q))).
  split; [apply clean_search_query_eq|].
  split; [apply clean_chars|].
  split; [apply join_spaces, split_words|].
  split; [apply split_join, split_words | reflexivity].
Qed.

(** C3 as the specification words it fails: the two hyphens of
    [a!! b--c  d] are both kept. *)
Lemma clean_search_query_keeps_hyphen_runs :
  PromptManager.clean_search_query (lit "a!! b--c  d") ≠ Return (lit "a b-c d").
Proof. discriminate. Qed.

(** C9: cleaning a cleaned query changes nothing. *)
Theorem clean_search_query_idempotent (q : str) :
  PromptManager.clean_search_query q ≫= PromptManager.clean_search_query
  = PromptManager.clean_search_query q.
Proof.
  rewrite clean_search_query_eq. cbn [mbind outcome_bind].
  rewrite clean_search_query_eq. f_equal.
  rewrite filter_kept_id; [apply clean_chars|].
  by rewrite split_join; [apply split_words|].
Qed.

(** C7: a feedback longer than [max_length] is cut to its first
    [max_length] characters with the ellipsis after them, a shorter one
    is left as it is, and the whitespace at the two ends of the result
    is trimmed; 2000 times [x] with [max_length] 1000 gives 1000 times
    [x] and the ellipsis, 1003 characters. *)
Theorem format_feedback_truncates (feedback : str) (max_length : Z) :
  (0 ≤ max_length)%Z →
  ((max_length < Z.of_nat (length feedback))%Z →
     trimmed_of (take (Z.to_nat max_length) feedback ++ lit "...")
                (PromptManager.format_feedback feedback max_length))
  ∧ ((Z.of_nat (length feedback) ≤ max_length)%Z →
       trimmed_of feedback (PromptManager.format_feedback feedback max_length))
  ∧ PromptManager.format_feedback (replicate 2000 "x"%char) 1000
    = replicate 1000 "x"%char ++ lit "..."
  ∧ length (PromptManager.format_feedback (replicate 2000 "x"%char) 1000) = 1003.
Proof.
  intros Hmax. unfold PromptManager.format_feedback, slice_to.
  split; [|split; [|split]].
  - intros Hlt. apply Z.ltb_lt in Hlt as ->. apply Z.leb_le in Hmax as ->.
    destruct (strip_spec (take (Z.to_nat max_length) feedback ++ lit "..."))
      as (l & r & ? & ? & ? & ? & ?).
    by exists l, r.
  - intros Hle. apply Z.ltb_ge in Hle as ->.
    destruct (strip_spec feedback) as (l & r & ? & ? & ? & ? & ?).
    by exists l, r.
  - by vm_compute.
  - by vm_compute.
Qed.

Lemma format_feedback_truncates_witness :
  trimmed_of (lit "  hello...")
             (PromptManager.format_feedback (lit "  hello world  ") 7).
Proof.
  destruct (format_feedback_truncates (lit "  hello world  ") 7) as [H _].
  { lia. }
  exact (H ltac:(simpl; lia)).
Defined.

(** C10: for a [max_length] that is not negative, the result is never
    longer than [max_length] plus the three characters of the
    ellipsis. *)
Theorem format_feedback_length (feedback : str) (max_length : Z) :
  (0 ≤ max_length)%Z →
  (Z.of_nat (length (PromptManager.format_feedback feedback max_length))
   ≤ max_length + 3)%Z.
Proof.
  intros Hmax. unfold PromptManager.format_feedback, slice_to.
  destruct (Z.ltb_spec max_length (Z.of_nat (length feedback))) as [Hlt | Hge].
  - apply Z.leb_le in Hmax as Hb. rewrite Hb.
    pose proof (length_strip (take (Z.to_nat max_length) feedback ++ lit "...")) as H.
    rewrite length_app length_take in H.
    change (length (lit "...")) with 3 in H. lia.
  - pose proof (length_strip feedback). lia.
Qed.

Lemma format_feedback_length_witness :
  (Z.of_nat (length (PromptManager.format_feedback (lit "  hello world  ") 7))
   ≤ 7 + 3)%Z.
Proof. apply format_feedback_length. lia. Defined.

Section ValidatePrompt.
Import PromptManager.

Lemma compile_placeholder :
  ∃ p, Re.compile false (lit "<[^>]+>") = Return p.
Proof. eexists. reflexivity. Qed.

(** A text with CR LF in it has a line feed in it. *)
Lemma contains_crlf_lf s :
  contains [CR; LF] s = true → contains [LF] s = true.
Proof.
  induction s as [|a s IH]; [done|].
  cbn [contains strip_prefix].
  destruct (ascii_eqb CR a) eqn:Ha; [|destruct (ascii_eqb LF a); auto].
  apply ascii_eqb_eq in Ha as <-. change (ascii_eqb LF CR) with false.
  destruct s as [|b s]; [done|].
  destruct (ascii_eqb LF b) eqn:Hb; [|exact IH].
  intros _. cbn [contains strip_prefix]. by rewrite Hb.
Qed.

End ValidatePrompt.

(** C2, what the code does: the issue is reported for every prompt that
    has CR LF in it, a line feed on its own or not; the prompt
    [a CR LF b], which has no line feed without its carriage return, is
    reported. *)
Theorem validate_prompt_mixed_line_endings (prompt : str) :
  ∃ issues, PromptManager.validate_prompt prompt = Return issues
    ∧ ("Mixed line endings"%string ∈ issues ↔ contains [CR; LF] prompt = true)
    ∧ bare_lf (lit "a" ++ [CR; LF] ++ lit "b") = false
    ∧ PromptManager.validate_prompt (lit "a" ++ [CR; LF] ++ lit "b")
      = Return ["Mixed line endings"%string].
Proof.
  destruct compile_placeholder as [p Hp].
  assert (Hv : ∃ issues, PromptManager.validate_prompt prompt = Return issues
             ∧ ("Mixed line endings"%string ∈ issues
                ↔ contains [CR; LF] prompt = true));
    [|destruct Hv as (issues & ? & ?); exists issues;
      split; [done|]; split; [done|]; split; reflexivity].
  unfold PromptManager.validate_prompt, Re.search.
  rewrite Hp. cbn [mbind outcome_bind mret outcome_ret].
  eexists. split; [reflexivity|].
  destruct (contains [CR; LF] prompt) eqn:Hcrlf.
  - rewrite (contains_crlf_lf _ Hcrlf). cbn [andb].
    split; [done|]. intros _.
    repeat (match goal with |- context [if ?b then _ else _] => destruct b end);
      apply list_elem_of_In; simpl; auto 10.
  - cbn [andb]. split; [|done].
    repeat (match goal with |- context [if ?b then _ else _] => destruct b end);
      rewrite list_elem_of_In; simpl; intuition discriminate.
Qed.

(** C1, at a tag that is no regular expression: with the tag [(] the
    pattern of [extract_command], and that of [extract_code_block], has
    an open group that nothing closes, [re.search] raises [re.error], and
    nothing catches it; [validate_response] catches the same error and
    answers [False]. *)
Theorem extract_command_raises :
  PromptManager.extract_command (lit "run") (lit "(") = Raise ReError
  ∧ PromptManager.extract_code_block (lit "run") (Some (lit "(")) = Raise ReError
  ∧ PromptManager.validate_response (lit "run") (lit "(") = Return false.
Proof. repeat split. Qed.

(** ** The filesystem *)

Section FSLemmas.
Import FS.
Implicit Types (p q : path) (n : node) (c : string).

Lemma lookup_app p q n : lookup (p ++ q) n = lookup p n ≫= lookup q.
Proof.
  revert n. induction p as [|c p IH]; intros n; [done|].
  destruct n as [|m es]; [done|]. simpl.
  destruct (es !! c); simpl; [apply IH | done].
Qed.

Lemma is_file_cons c q m es :
  is_file (c :: q) (Dir m es)
  = match es !! c with Some child => is_file q child | None => false end.
Proof. unfold is_file. simpl. by destruct (es !! c). Qed.

Lemma is_dir_cons c q m es :
  is_dir (c :: q) (Dir m es)
  = match es !! c with Some child => is_dir q child | None => false end.
Proof. unfold is_dir. simpl. by destruct (es !! c). Qed.

Lemma chain_is_dir mode p : is_dir p (chain mode p) = true.
Proof.
  induction p as [|c p IH]; [done|].
  cbn [chain foldr]. rewrite is_dir_cons lookup_singleton_eq. exact IH.
Qed.


(** What [mkdir_p] leaves: [p] is a directory, and what was a file or a
    directory still is. *)
Lemma mkdir_p_spec umask p : ∀ n n',
  mkdir_p umask p n = Some n' →
  is_dir p n' = true
  ∧ (∀ q, is_file q n = true → is_file q n' = true)
  ∧ (∀ q, is_dir q n = true → is_dir q n' = true).
Proof.
  induction p as [|c p IH]; intros [|m es] n' E; try done.
  - by injection E as <-.
  - cbn [mkdir_p] in E. destruct (es !! c) as [child|] eqn:Hc.
    + destruct (mkdir_p umask p child) as [child'|] eqn:Hm; [|done].
      injection E as <-. destruct (IH _ _ Hm) as (Hd & Hf & Hdd).
      split; [by rewrite is_dir_cons lookup_insert_eq|].
      split; intros [|d q]; try done.
      * rewrite !is_file_cons. destruct (decide (c = d)) as [<-|Hne].
        -- rewrite lookup_insert_eq Hc. apply Hf.
        -- by rewrite lookup_insert_ne.
      * rewrite !is_dir_cons. destruct (decide (c = d)) as [<-|Hne].
        -- rewrite lookup_insert_eq Hc. apply Hdd.
        -- by rewrite lookup_insert_ne.
    + injection E as <-.
      split; [by rewrite is_dir_cons lookup_insert_eq chain_is_dir|].
      split; intros [|d q]; try done.
      * rewrite !is_file_cons. destruct (decide (c = d)) as [<-|Hne].
        -- by rewrite Hc.
        -- by rewrite lookup_insert_ne.
      * rewrite !is_dir_cons. destruct (decide (c = d)) as [<-|Hne].
        -- by rewrite Hc.
        -- by rewrite lookup_insert_ne.
Qed.

(** [mkdir_p] fails only at a regular file on the way. *)
Lemma mkdir_p_None umask p : ∀ n,
  mkdir_p umask p n = None → ∃ q, q `prefix_of` p ∧ is_file q n = true.
Proof.
  induction p as [|c p IH]; intros [|m es] E; try done.
  - exists []. split; [apply prefix_nil | done].
  - exists []. split; [apply prefix_nil | done].
  - cbn [mkdir_p] in E. destruct (es !! c) as [child|] eqn:Hc; [|done].
    destruct (mkdir_p umask p child) as [child'|] eqn:Hm; [done|].
    destruct (IH _ Hm) as (q & Hq & Hf).
    exists (c :: q). split; [by apply prefix_cons|].
    by rewrite is_file_cons Hc.
Qed.

(** On a directory [chmod] goes through, and no file or directory comes
    or goes. *)
Lemma chmod_spec mode p : ∀ n,
  is_dir p n = true →
  ∃ n', chmod mode p n = Some n'
        ∧ (∀ q, is_file q n' = is_file q n)
        ∧ (∀ q, is_dir q n' = is_dir q n).
Proof.
  induction p as [|c p IH]; intros [|m es] Hd; try done.
  - exists (Dir mode es). split; [done|]. split; by intros [|d q].
  - rewrite is_dir_cons in Hd. cbn [chmod].
    destruct (es !! c) as [child|] eqn:Hc; [|done].
    destruct (IH _ Hd) as (child' & Hch & Hf & Hdd). simpl. rewrite Hch. simpl.
    eexists. split; [done|].
    split; intros [|d q]; try done.
    + rewrite !is_file_cons. destruct (decide (c = d)) as [<-|Hne].
      * by rewrite lookup_insert_eq Hc.
      * by rewrite lookup_insert_ne.
    + rewrite !is_dir_cons. destruct (decide (c = d)) as [<-|Hne].
      * by rewrite lookup_insert_eq Hc.
      * by rewrite lookup_insert_ne.
Qed.

Lemma remove_cons2 d e k m (es : gmap string node) :
  remove (d :: e :: k) (Dir m es)
  = es !! d ≫= λ child, remove (e :: k) child
           ≫= λ child', Some (Dir m (<[d := child']> es)).
Proof. done. Qed.

(** An entry of the directory [p] taken out. *)
Lemma remove_child p : ∀ n m es c x,
  lookup p n = Some (Dir m es) → es !! c = Some x →
  ∃ n', remove (p ++ [c]) n = Some n'
        ∧ lookup p n' = Some (Dir m (delete c es)).
Proof.
  induction p as [|d p IH]; intros n m es c x Hp Hc.
  - injection Hp as ->. simpl. rewrite Hc. by eexists.
  - destruct n as [|m0 es0]; [done|]. simpl in Hp.
    destruct (es0 !! d) as [child|] eqn:Hd; [|done]. simpl in Hp.
    destruct (IH _ _ _ _ _ Hp Hc) as (child' & Hr & Hl).
    exists (Dir m0 (<[d := child']> es0)). split.
    + change ((d :: p) ++ [c]) with (d :: (p ++ [c])).
      destruct (p ++ [c]) as [|e k] eqn:Hk; [by destruct p|].
      rewrite remove_cons2 Hd. cbn [mbind option_bind]. rewrite Hr. done.
    + simpl. by rewrite lookup_insert_eq.
Qed.

Lemma lookup_child p n m es c :
  lookup p n = Some (Dir m es) → lookup (p ++ [c]) n = es !! c.
Proof.
  intros Hp. rewrite lookup_app Hp. simpl. by destruct (es !! c).
Qed.

Lemma lookup_delete_all (es : gmap string node) (items : list string)
    (k : string) :
  foldl (λ e c, delete c e) es items !! k
  = match decide (k ∈ items) with left _ => None | right _ => es !! k end.
Proof.
  revert es. induction items as [|c items IH]; intros es.
  { simpl. destruct (decide (k ∈ [])) as [Hin|]; [|done]. by apply elem_of_nil in Hin. }
  cbn [foldl]. rewrite IH.
  destruct (decide (k ∈ items)) as [Hin|Hnin].
  - rewrite decide_True; [by right | done].
  - destruct (decide (k = c)) as [->|Hne].
    + rewrite decide_True; [by left|]. apply lookup_delete_eq.
    + rewrite decide_False; [by intros [?|?]%elem_of_cons|].
      by apply lookup_delete_ne.
Qed.

End FSLemmas.

(** ** [DirectoryManager] *)

Section Cleanup.
Import FS DirectoryManager.
Implicit Types (p : path) (n : node).

Lemma required_names base_dir :
  (required_dirs (init base_dir)).*1 = logical_names.
Proof. done. Qed.

Lemma get_None key (d : list (string * path)) :
  key ∉ d.*1 → get key d = None.
Proof.
  induction d as [|[k v] d IH]; [done|]. intros Hnin. simpl in *.
  apply not_elem_of_cons in Hnin as [Hne Hnin].
  rewrite bool_decide_eq_false_2; [congruence|]. by apply IH.
Qed.


(** The loop over the entries of a directory runs to its end and takes
    them all out. *)
Lemma remove_contents_ok path m : ∀ items n es,
  lookup path n = Some (Dir m es) →
  ∃ n', remove_contents path items n = (true, n')
        ∧ lookup path n' = Some (Dir m (foldl (λ e c, delete c e) es items)).
Proof.
  induction items as [|name items IH]; intros n es Hp; [by exists n|].
  cbn [remove_contents foldl]. unfold unlink, rmtree, is_file, is_dir.
  rewrite (lookup_child _ _ _ _ name Hp).
  destruct (es !! name) as [[|m' es']|] eqn:Hn.
  - destruct (remove_child _ _ _ _ _ _ Hp Hn) as (n1 & -> & Hp1). by apply IH.
  - destruct (remove_child _ _ _ _ _ _ Hp Hn) as (n1 & -> & Hp1). by apply IH.
  - rewrite (delete_id _ _ Hn). by apply IH.
Qed.

Lemma delete_all_elements (es : gmap string node) :
  foldl (λ e c, delete c e) es (elements (dom es)) = ∅.
Proof.
  apply map_eq. intros k. rewrite lookup_delete_all lookup_empty.
  destruct (decide (k ∈ elements (dom es))) as [|Hnin]; [done|].
  apply not_elem_of_dom. by rewrite -elem_of_elements.
Qed.

End Cleanup.

(** C4: for a name that is none of the five logical names,
    [cleanup_directory] answers [False], logs the error of the unknown
    directory type, and leaves the filesystem as it is; so it does for
    [bogus]. *)
Theorem cleanup_directory_unknown (base_dir : FS.path) (dir_type : string)
    (st : DirectoryManager.state) :
  dir_type ∉ logical_names →
  DirectoryManager.cleanup_directory (DirectoryManager.init base_dir) dir_type st
  = (false,
     DirectoryManager.State
       (DirectoryManager.fs st)
       (DirectoryManager.log st
          ++ [(DirectoryManager.ERROR,
               DirectoryManager.UnknownDirectoryType dir_type)])).
Proof.
  intros Hnin. unfold DirectoryManager.cleanup_directory.
  rewrite get_None; [by rewrite required_names | done].
Qed.

Lemma cleanup_directory_unknown_witness :
  DirectoryManager.cleanup_directory
    (DirectoryManager.init ["workspace"%string]) "bogus"
    (DirectoryManager.State (FS.Dir 493 ∅) [])
  = (false,
     DirectoryManager.State (FS.Dir 493 ∅)
       [(DirectoryManager.ERROR,
         DirectoryManager.UnknownDirectoryType "bogus")]).
Proof.
  apply (cleanup_directory_unknown ["workspace"%string] "bogus"
           (DirectoryManager.State (FS.Dir 493 ∅) [])).
  unfold logical_names. rewrite !elem_of_cons elem_of_nil.
  intuition discriminate.
Defined.



Section Setup.
Import FS DirectoryManager.




End Setup.


(** ** The matcher of [re] on the pattern of [extract_code_block] *)

Section Matcher.
Import Re.
Implicit Types (s w : str) (k : cont) (caps : captures).

Lemma ascii_eqb_sym (a b : ascii) : ascii_eqb a b = ascii_eqb b a.
Proof.
  destruct (ascii_eqb b a) eqn:E.
  - apply ascii_eqb_eq in E as ->. apply ascii_eqb_refl.
  - apply ascii_eqb_neq. apply ascii_eqb_neq in E. congruence.
Qed.

Lemma strip_prefix_Some w s s' : strip_prefix w s = Some s' ↔ s = w ++ s'.
Proof.
  revert s. induction w as [|a w IH]; intros s; simpl.
  - split; [by intros [= ->] | by intros ->].
  - destruct s as [|b s]; [done|].
    destruct (ascii_eqb a b) eqn:E.
    + apply ascii_eqb_eq in E as ->. rewrite IH. split; [by intros -> | by intros [= ->]].
    + apply ascii_eqb_neq in E. split; [done | by intros [= -> ->]].
Qed.

Lemma strip_prefix_None w s : strip_prefix w s = None ↔ ∀ s', s ≠ w ++ s'.
Proof.
  split.
  - intros E s' Hs. apply strip_prefix_Some in Hs. congruence.
  - intros H. destruct (strip_prefix w s) as [s'|] eqn:E; [|done].
    apply strip_prefix_Some in E. by destruct (H s').
Qed.

Lemma strip_prefix_app w s : strip_prefix w (w ++ s) = Some s.
Proof. by apply strip_prefix_Some. Qed.

(** Literal characters are matched as a prefix. *)
Lemma mt_cat_lits w r k s caps :
  mt (cat_lits w r) k s caps
  = match strip_prefix w s with
    | Some s' => mt r k s' caps
    | None => None
    end.
Proof.
  revert s. induction w as [|a w IH]; intros s; [done|].
  cbn [cat_lits foldr mt strip_prefix]. destruct s as [|b s]; [done|].
  rewrite (ascii_eqb_sym b a). destruct (ascii_eqb a b); [apply IH | done].
Qed.

(** The lazy [.*] hands over to what follows at the first place where
    that matches. *)
Lemma lazy_dot_star k fuel : ∀ s caps,
  length s < fuel →
  repeat (mt (Dot true)) false k fuel s caps = first_suffix (λ s', k s' caps) s.
Proof.
  induction fuel as [|fuel IH]; intros s caps Hlen; [lia|].
  cbn [repeat]. destruct s as [|a s]; cbn [first_suffix].
  - by destruct (k [] caps).
  - destruct (k (a :: s) caps); [done|]. cbn [mt orb].
    replace (length s <? length (a :: s)) with true
      by (symmetry; apply Nat.ltb_lt; simpl; lia).
    apply IH. simpl in Hlen. lia.
Qed.




(** The group and the closing fence: the content runs to the first
    closing fence. *)
Lemma first_suffix_close caps whole : ∀ s done,
  whole = done ++ s →
  first_suffix
    (λ s', match strip_prefix closing s' with
           | Some post =>
               Some (post, <[1 := take (length whole - length s') whole]> caps)
           | None => None
           end) s
  = (λ '(c, post), (post, <[1 := done ++ c]> caps)) <$> find_close s.
Proof.
  induction s as [|a s IH]; intros done Hw.
  - simpl. done.
  - cbn [first_suffix find_close].
    destruct (strip_prefix closing (a :: s)) as [post|] eqn:E.
    + simpl. do 3 f_equal. rewrite Hw length_app app_nil_r.
      replace (length done + length (a :: s) - S (length s)) with (length done)
        by (simpl; lia).
      by rewrite take_app_length.
    + rewrite (IH (done ++ [a])); [by rewrite -app_assoc|].
      destruct (find_close s) as [[c post]|]; [|done].
      simpl. by rewrite -app_assoc.
Qed.

Lemma first_suffix_ext {A} (k1 k2 : str → option A) s :
  (∀ s', k1 s' = k2 s') → first_suffix k1 s = first_suffix k2 s.
Proof.
  intros H. induction s as [|a s IH]; cbn [first_suffix]; rewrite H; [done|].
  by rewrite IH.
Qed.

Lemma mt_content s3 caps :
  mt (Cat (Group 1 (Cat (Star false (Dot true)) Eps)) (lits closing))
     (λ s' caps', Some (s', caps')) s3 caps
  = (λ '(c, post), (post, <[1 := c]> caps)) <$> find_close s3.
Proof.
  cbn [mt]. rewrite lazy_dot_star; [lia|].
  rewrite -(first_suffix_close caps s3 s3 []); [done|].
  apply first_suffix_ext. intros s'. unfold lits. rewrite mt_cat_lits.
  by destruct (strip_prefix closing s').
Qed.

Lemma mt_Cat r1 r2 k s caps : mt (Cat r1 r2) k s caps = mt r1 (mt r2 k) s caps.
Proof. done. Qed.



End Matcher.

(** ** The parser of [re] on the pattern of [extract_code_block] *)

Section Parser.
Import Re.

Lemma step_plain dotall c rest st :
  meta c = false → p_set st = None →
  step dotall (c :: rest) st = Next rest (push_item st (Lit c)).
Proof.
  intros Hc Hset. unfold step. rewrite Hset.
  unfold meta in Hc. cbn [lit list_ascii_of_string existsb] in Hc.
  repeat (apply orb_false_elim in Hc as [? Hc]).
  unfold is_quantifier.
  repeat match goal with H : ascii_eqb c _ = false |- _ => rewrite H; clear H end.
  done.
Qed.


Lemma foldl_push_lits c l st :
  foldl push_item st (map Lit (c :: l))
  = PState (p_stack st) (p_alts st) (reverse (map Lit (c :: l)) ++ p_seq st)
           false (p_count st) None.
Proof.
  revert c st. induction l as [|d l IH]; intros c st; [done|].
  change (map Lit (c :: d :: l)) with (Lit c :: map Lit (d :: l)).
  cbn [foldl]. rewrite IH. cbn [push_item p_stack p_alts p_seq p_count].
  by rewrite (reverse_cons (map Lit (d :: l))) -app_assoc.
Qed.

Lemma mk_seq_lits w : mk_seq (reverse (map Lit w)) = lits w.
Proof.
  unfold mk_seq. induction w as [|c w IH]; [done|].
  cbn [map]. rewrite reverse_cons foldl_app IH. done.
Qed.


End Parser.

(** ** The first block of a text *)

Section FirstBlock.
Implicit Types (s c post tag : str).

Lemma find_close_Some s : ∀ c post,
  find_close s = Some (c, post) →
  s = c ++ closing ++ post
  ∧ ∀ c' post', s = c' ++ closing ++ post' → length c ≤ length c'.
Proof.
  induction s as [|a s IH]; intros c post; cbn [find_close].
  - destruct (strip_prefix closing []) eqn:E; [done | done].
  - destruct (strip_prefix closing (a :: s)) as [post0|] eqn:E.
    + intros [= <- <-]. apply strip_prefix_Some in E.
      split; [done | simpl; lia].
    + destruct (find_close s) as [[c0 post0]|] eqn:Hs; [|done].
      intros [= <- <-]. destruct (IH _ _ eq_refl) as [-> Hmin].
      split; [done|]. intros [|a' c'] post' E'.
      * exfalso. exact (proj1 (strip_prefix_None _ _) E post' E').
      * injection E' as <- E'. simpl. apply Hmin in E'. lia.
Qed.

Lemma find_close_None s :
  find_close s = None → ∀ c post, s ≠ c ++ closing ++ post.
Proof.
  induction s as [|a s IH]; cbn [find_close].
  - intros _ [|??] ?; done.
  - destruct (strip_prefix closing (a :: s)) as [post0|] eqn:E; [done|].
    destruct (find_close s) as [[c0 post0]|] eqn:Hs; [done|].
    intros _ [|a' c'] post' E'.
    + exact (proj1 (strip_prefix_None _ _) E post' E').
    + injection E' as <- E'. by apply (IH eq_refl c' post').
Qed.







Lemma first_suffix_Some {A} (k : str → option A) s m :
  first_suffix k s = Some m →
  ∃ pre s', s = pre ++ s' ∧ k s' = Some m
    ∧ ∀ pre' s'', s = pre' ++ s'' → length pre' < length pre → k s'' = None.
Proof.
  induction s as [|a s IH]; cbn [first_suffix].
  - destruct (k []) eqn:E; [|done]. intros [= ->].
    exists [], []. repeat split; [done|]. simpl. lia.
  - destruct (k (a :: s)) eqn:E.
    + intros [= ->]. exists [], (a :: s). repeat split; [done|]. simpl. lia.
    + intros (pre & s' & -> & Hk & Hmin)%IH.
      exists (a :: pre), s'. repeat split; [done|].
      intros [|a' pre'] s'' E' Hlen.
      * simpl in E'. by subst.
      * injection E' as <- E'. apply (Hmin pre'); [done | simpl in Hlen; lia].
Qed.

Lemma first_suffix_None {A} (k : str → option A) s :
  first_suffix k s = None → ∀ pre s', s = pre ++ s' → k s' = None.
Proof.
  induction s as [|a s IH]; cbn [first_suffix].
  - destruct (k []) eqn:E; [done|]. intros _ [|??] s' E'; [|done].
    simpl in E'. by subst.
  - destruct (k (a :: s)) eqn:E; [done|].
    intros Hs [|a' pre] s' E'.
    + simpl in E'. by subst.
    + injection E' as <- E'. by eapply IH.
Qed.


End FirstBlock.



(** * Further properties *)

(** ** The filesystem, continued *)

Section FSMore.
Import FS.
Implicit Types (p q : path) (n : node) (c : string).

Lemma mode_of_cons c q m es :
  mode_of (c :: q) (Dir m es)
  = match es !! c with Some child => mode_of q child | None => None end.
Proof. unfold mode_of. simpl. by destruct (es !! c). Qed.

Lemma mode_of_is_dir p n m : mode_of p n = Some m → is_dir p n = true.
Proof. unfold mode_of, is_dir. by destruct (lookup p n) as [[|??]|]. Qed.

(** On a directory that is there [mkdir_p] changes nothing. *)
Lemma mkdir_p_id umask p : ∀ n, is_dir p n = true → mkdir_p umask p n = Some n.
Proof.
  induction p as [|c p IH]; intros [|m es] Hd; try done.
  rewrite is_dir_cons in Hd. cbn [mkdir_p].
  destruct (es !! c) as [child|] eqn:Hc; [|done].
  rewrite (IH _ Hd) /=. by rewrite insert_id.
Qed.

(** [mkdir_p] makes no regular file. *)
Lemma mkdir_p_file_back umask p : ∀ n n' q,
  mkdir_p umask p n = Some n' → is_file q n' = true → is_file q n = true.
Proof.
  induction p as [|c p IH]; intros [|m es] n' q E; try done.
  - by injection E as <-.
  - cbn [mkdir_p] in E. destruct (es !! c) as [child|] eqn:Hc.
    + destruct (mkdir_p umask p child) as [child'|] eqn:Hm; [|done].
      injection E as <-. destruct q as [|d q]; [done|].
      rewrite !is_file_cons. destruct (decide (c = d)) as [<-|Hne].
      * rewrite lookup_insert_eq Hc. by apply IH.
      * by rewrite lookup_insert_ne.
    + injection E as <-. destruct q as [|d q]; [done|].
      rewrite !is_file_cons. destruct (decide (c = d)) as [<-|Hne].
      * rewrite lookup_insert_eq Hc. clear.
        revert q. induction p as [|e p IHp]; intros [|d q]; try done.
        cbn [chain foldr]. rewrite is_file_cons.
        destruct (decide (e = d)) as [<-|Hne].
        -- rewrite lookup_singleton_eq. apply IHp.
        -- by rewrite lookup_singleton_ne.
      * by rewrite lookup_insert_ne.
Qed.

(** A regular file in the way makes [mkdir_p] fail. *)
Lemma blocked_mkdir_p umask p n : blocked p n → mkdir_p umask p n = None.
Proof.
  intros (q & [k ->] & Hf). revert n Hf.
  induction q as [|c q IH]; intros [|m es] Hf; try done.
  - by destruct k.
  - rewrite is_file_cons in Hf. cbn [app mkdir_p].
    destruct (es !! c) as [child|]; [|done]. by rewrite (IH _ Hf).
Qed.

Lemma mkdir_p_mode_of umask p : ∀ n n' q m,
  mkdir_p umask p n = Some n' → mode_of q n = Some m → mode_of q n' = Some m.
Proof.
  induction p as [|c p IH]; intros [|m0 es] n' q m E; try done.
  - by injection E as <-.
  - cbn [mkdir_p] in E. destruct (es !! c) as [child|] eqn:Hc.
    + destruct (mkdir_p umask p child) as [child'|] eqn:Hm; [|done].
      injection E as <-. destruct q as [|d q]; [done|].
      rewrite !mode_of_cons. destruct (decide (c = d)) as [<-|Hne].
      * rewrite lookup_insert_eq Hc. by apply IH.
      * by rewrite lookup_insert_ne.
    + injection E as <-. destruct q as [|d q]; [done|].
      rewrite !mode_of_cons. destruct (decide (c = d)) as [<-|Hne].
      * by rewrite Hc.
      * by rewrite lookup_insert_ne.
Qed.

(** [chmod] to the mode that is there changes nothing. *)
Lemma chmod_id mode p : ∀ n, mode_of p n = Some mode → chmod mode p n = Some n.
Proof.
  induction p as [|c p IH]; intros [|m es] Hm; try done.
  - unfold mode_of in Hm. simpl in Hm. by injection Hm as ->.
  - rewrite mode_of_cons in Hm. cbn [chmod].
    destruct (es !! c) as [child|] eqn:Hc; [|done].
    rewrite /= (IH _ Hm) /=. by rewrite insert_id.
Qed.

(** [chmod] sets the mode of its directory and of no other. *)
Lemma chmod_mode_of mode p : ∀ n n',
  chmod mode p n = Some n' → is_dir p n = true →
  mode_of p n' = Some mode ∧ ∀ q, q ≠ p → mode_of q n' = mode_of q n.
Proof.
  induction p as [|c p IH]; intros [|m es] n' E Hd; try done.
  - injection E as <-. split; [done|]. by intros [|d q].
  - rewrite is_dir_cons in Hd. cbn [chmod] in E.
    destruct (es !! c) as [child|] eqn:Hc; [|done]. simpl in E.
    destruct (chmod mode p child) as [child'|] eqn:Hch; [|done].
    injection E as <-. destruct (IH _ _ Hch Hd) as [Hm Hother].
    split; [by rewrite mode_of_cons lookup_insert_eq|].
    intros [|d q] Hne; [done|]. rewrite !mode_of_cons.
    destruct (decide (c = d)) as [<-|Hcd].
    + rewrite lookup_insert_eq Hc. apply Hother. congruence.
    + by rewrite lookup_insert_ne.
Qed.

(** Taking an entry out changes nothing but at the entry and below
    it. *)
Lemma remove_frame p : ∀ n n' q,
  remove p n = Some n' → ¬ p `prefix_of` q →
  is_file q n' = is_file q n ∧ is_dir q n' = is_dir q n.
Proof.
  induction p as [|c p IH]; intros n n' q E Hq; [done|].
  destruct n as [|m es]; [by destruct p|].
  destruct p as [|e p].
  - cbn [remove] in E. destruct (es !! c) eqn:Hc; [|done]. injection E as <-.
    destruct q as [|d q]; [done|]. rewrite !is_file_cons !is_dir_cons.
    assert (c ≠ d) by (intros ->; apply Hq, prefix_cons, prefix_nil).
    by rewrite lookup_delete_ne.
  - rewrite remove_cons2 in E. destruct (es !! c) as [child|] eqn:Hc; [|done].
    cbn [mbind option_bind] in E.
    destruct (remove (e :: p) child) as [child'|] eqn:Hr; [|done].
    injection E as <-. destruct q as [|d q]; [done|].
    rewrite !is_file_cons !is_dir_cons. destruct (decide (c = d)) as [<-|Hne].
    + rewrite lookup_insert_eq Hc. apply (IH _ _ _ Hr).
      intros Hp. by apply Hq, prefix_cons.
    + by rewrite lookup_insert_ne.
Qed.

End FSMore.

(** ** [setup_directories], continued *)

Section SetupMore.
Import FS DirectoryManager.

Lemma blocked_keeps p n n' : keeps_all n n' → blocked p n → blocked p n'.
Proof. intros [Hf _] (q & Hq & Hfq). exists q. split; [done | by apply Hf]. Qed.

Lemma blocked_back p n n' :
  (∀ q, is_file q n' = true → is_file q n = true) → blocked p n' → blocked p n.
Proof. intros Hf (q & Hq & Hfq). exists q. split; [done | by apply Hf]. Qed.

(** One turn of the loop, with all that it keeps. *)
Lemma setup_entry_more umask results st name path :
  ∃ b st', setup_entry umask (results, st) (name, path)
           = (<[name := b]> results, st')
    ∧ settled path (fs st') b
    ∧ keeps_all (fs st) (fs st')
    ∧ (∀ q, is_file q (fs st') = true → is_file q (fs st) = true)
    ∧ (∀ q, mode_of q (fs st) = Some 511%N → mode_of q (fs st') = Some 511%N)
    ∧ (b = false ↔ blocked path (fs st)).
Proof.
  unfold setup_entry.
  destruct (mkdir_p umask path (fs st)) as [fs1|] eqn:Hm.
  - destruct (mkdir_p_spec _ _ _ _ Hm) as (Hd & Hf & Hdd).
    destruct (chmod_spec 511 _ _ Hd) as (fs2 & Hch & Hf2 & Hd2). rewrite Hch.
    destruct (chmod_mode_of _ _ _ _ Hch Hd) as [Hmode Hother].
    exists true. eexists. split; [done|]. simpl.
    split; [done|]. split; [split; intros q Hq|].
    { rewrite Hf2. by apply Hf. }
    { rewrite Hd2. by apply Hdd. }
    split. { intros q Hq. rewrite Hf2 in Hq. by eapply mkdir_p_file_back. }
    split.
    { intros q Hq. destruct (decide (q = path)) as [->|Hne]; [done|].
      rewrite Hother //. by eapply mkdir_p_mode_of. }
    split; [done|]. intros Hb. apply (blocked_mkdir_p umask) in Hb. congruence.
  - exists false. eexists. split; [done|]. simpl.
    split; [by apply mkdir_p_None in Hm|].
    split; [by split|]. split; [done|]. split; [done|].
    split; [|done]. intros _. by apply mkdir_p_None in Hm.
Qed.

Lemma settled_persists p n n' b :
  keeps_all n n' →
  (∀ q, mode_of q n = Some 511%N → mode_of q n' = Some 511%N) →
  settled p n b → settled p n' b.
Proof.
  intros Hk Hm. destruct b; simpl; [apply Hm | by apply blocked_keeps].
Qed.

Lemma setup_fold_more umask : ∀ dirs results st,
  ∃ results' st', foldl (setup_entry umask) (results, st) dirs = (results', st')
    ∧ keeps_all (fs st) (fs st')
    ∧ (∀ q, is_file q (fs st') = true → is_file q (fs st) = true)
    ∧ (∀ q, mode_of q (fs st) = Some 511%N → mode_of q (fs st') = Some 511%N)
    ∧ (∀ name, name ∉ dirs.*1 → results' !! name = results !! name)
    ∧ (NoDup dirs.*1 →
       Forall (λ '(name, path),
                 ∃ b, results' !! name = Some b ∧ settled path (fs st') b
                      ∧ (b = false ↔ blocked path (fs st)))
              dirs).
Proof.
  induction dirs as [|[name path] dirs IH]; intros results st.
  { exists results, st. repeat split; done. }
  cbn [foldl].
  destruct (setup_entry_more umask results st name path)
    as (b & st1 & -> & Hb & Hk1 & Hf1 & Hm1 & Hbl).
  destruct (IH (<[name := b]> results) st1)
    as (results' & st' & -> & Hk & Hf & Hm & Hout & Hall).
  exists results', st'. split; [done|].
  split. { destruct Hk1, Hk. split; eauto. }
  split; [eauto|]. split; [eauto|]. split.
  { intros k Hk'. cbn [fmap list_fmap fst] in Hk'.
    apply not_elem_of_cons in Hk' as [Hne Hk'].
    by rewrite Hout // lookup_insert_ne. }
  intros Hnd. cbn [fmap list_fmap fst] in Hnd. apply NoDup_cons in Hnd as [Hnin Hnd].
  constructor.
  - exists b. split; [by rewrite Hout // lookup_insert_eq|].
    split; [by eapply settled_persists | done].
  - eapply Forall_impl; [by apply Hall|]. intros [name' path'] (b' & ? & ? & Hb').
    exists b'. split; [done|]. split; [done|]. rewrite Hb'. split.
    + by apply blocked_back.
    + by apply blocked_keeps.
Qed.

(** A turn of the loop on an entry that is settled answers the same and
    leaves the filesystem as it is. *)
Lemma setup_entry_settled umask results st name path b :
  settled path (fs st) b →
  ∃ st', setup_entry umask (results, st) (name, path)
         = (<[name := b]> results, st')
         ∧ fs st' = fs st.
Proof.
  intros Hs. unfold setup_entry. destruct b; simpl in Hs.
  - rewrite mkdir_p_id; [by eapply mode_of_is_dir|].
    rewrite chmod_id //. by eexists.
  - rewrite blocked_mkdir_p //. by eexists.
Qed.

Lemma setup_fold_settled umask (answers : gmap string bool) : ∀ dirs results st,
  Forall (λ '(name, path),
            ∃ b, answers !! name = Some b ∧ settled path (fs st) b) dirs →
  ∃ results' st', foldl (setup_entry umask) (results, st) dirs = (results', st')
    ∧ fs st' = fs st
    ∧ (∀ name, name ∈ dirs.*1 → results' !! name = answers !! name)
    ∧ (∀ name, name ∉ dirs.*1 → results' !! name = results !! name).
Proof.
  induction dirs as [|[name path] dirs IH]; intros results st Hall.
  { exists results, st. repeat split; try done. intros ? Hin. by apply elem_of_nil in Hin. }
  apply Forall_cons in Hall as [(b & Hb & Hs) Hall]. cbn [foldl].
  destruct (setup_entry_settled umask results st name path b Hs) as (st1 & -> & Hfs).
  destruct (IH (<[name := b]> results) st1) as (results' & st' & -> & Hfs' & Hin & Hout).
  { by rewrite Hfs. }
  exists results', st'. split; [done|]. split; [congruence|]. split.
  - intros k Hk. cbn [fmap list_fmap fst] in Hk.
    destruct (decide (k ∈ dirs.*1)) as [|Hnin]; [by apply Hin|].
    apply elem_of_cons in Hk as [->|]; [|done].
    by rewrite Hout // lookup_insert_eq.
  - intros k Hk. cbn [fmap list_fmap fst] in Hk.
    apply not_elem_of_cons in Hk as [Hne Hk]. by rewrite Hout // lookup_insert_ne.
Qed.

Lemma logical_names_NoDup : NoDup logical_names.
Proof. apply (bool_decide_unpack _). by vm_compute. Qed.

End SetupMore.

(** X1: [setup_directories] takes nothing away and makes no regular
    file: what was a regular file or a directory before the call is one
    after it, and a regular file after the call was one before. *)
Theorem setup_directories_keeps (umask : N) (base_dir : FS.path)
    (st : DirectoryManager.state) :
  let st' := (DirectoryManager.setup_directories umask
                (DirectoryManager.init base_dir) st).2 in
  keeps_all (DirectoryManager.fs st) (DirectoryManager.fs st')
  ∧ ∀ q, FS.is_file q (DirectoryManager.fs st') = true
         → FS.is_file q (DirectoryManager.fs st) = true.
Proof.
  unfold DirectoryManager.setup_directories.
  destruct (setup_fold_more umask
              (DirectoryManager.required_dirs (DirectoryManager.init base_dir))
              ∅ st) as (results & st' & -> & Hk & Hf & _).
  by split.
Qed.


(** X3: [setup_directories] run again on the filesystem that it left
    gives the same answers and leaves the filesystem as it is. *)
Theorem setup_directories_idempotent (umask : N) (base_dir : FS.path)
    (st : DirectoryManager.state) :
  let self := DirectoryManager.init base_dir in
  let first := DirectoryManager.setup_directories umask self st in
  let second := DirectoryManager.setup_directories umask self first.2 in
  second.1 = first.1
  ∧ DirectoryManager.fs second.2 = DirectoryManager.fs first.2.
Proof.
  unfold DirectoryManager.setup_directories. cbv zeta.
  destruct (setup_fold_more umask
              (DirectoryManager.required_dirs (DirectoryManager.init base_dir))
              ∅ st) as (r1 & st1 & -> & _ & _ & _ & Hout1 & Hall).
  cbn [fst snd].
  destruct (setup_fold_settled umask r1
              (DirectoryManager.required_dirs (DirectoryManager.init base_dir))
              ∅ st1) as (r2 & st2 & -> & Hfs & Hin & Hout2).
  { eapply Forall_impl; [apply Hall; rewrite required_names; apply logical_names_NoDup|].
    intros [name path] (b & ? & ? & _). by exists b. }
  split; [|done]. apply map_eq. intros k. cbn [fst].
  destruct (decide (k ∈ (DirectoryManager.required_dirs
                           (DirectoryManager.init base_dir)).*1)) as [Hk|Hk].
  - by apply Hin.
  - by rewrite Hout1 // Hout2.
Qed.

(** ** [cleanup_directory], continued *)

Section CleanupMore.
Import FS DirectoryManager.

Lemma not_below_child path name q :
  ¬ strictly_below path q → ¬ (path ++ [name]) `prefix_of` q.
Proof.
  intros Hq [k ->]. apply Hq. exists name, k. by rewrite -app_assoc.
Qed.

(** The loop over the entries of [path] changes nothing but below
    [path]. *)
Lemma remove_contents_frame path : ∀ items n b n' q,
  remove_contents path items n = (b, n') → ¬ strictly_below path q →
  is_file q n' = is_file q n ∧ is_dir q n' = is_dir q n.
Proof.
  induction items as [|name items IH]; intros n b n' q E Hq.
  { by injection E as <- <-. }
  cbn [remove_contents] in E. unfold unlink, rmtree in E.
  destruct (is_file (path ++ [name]) n) eqn:Hf.
  - destruct (remove (path ++ [name]) n) as [n1|] eqn:Hr.
    + destruct (remove_frame _ _ _ q Hr (not_below_child _ name _ Hq)) as [<- <-].
      by eapply IH.
    + by injection E as <- <-.
  - destruct (is_dir (path ++ [name]) n) eqn:Hd; [|by eapply IH].
    destruct (remove (path ++ [name]) n) as [n1|] eqn:Hr.
    + destruct (remove_frame _ _ _ q Hr (not_below_child _ name _ Hq)) as [<- <-].
      by eapply IH.
    + by injection E as <- <-.
Qed.


(** A directory is cleaned with success and left empty. *)
Lemma cleanup_directory_dir self dir_type path st m es :
  get dir_type (required_dirs self) = Some path →
  lookup path (fs st) = Some (Dir m es) →
  ∃ n', cleanup_directory self dir_type st
        = (true, logger INFO (CleanedDirectory path) (State n' (log st)))
        ∧ remove_contents path (elements (dom es)) (fs st) = (true, n')
        ∧ lookup path n' = Some (Dir m ∅).
Proof.
  intros Hg Hp. unfold cleanup_directory, exists_, iterdir. rewrite Hg Hp.
  destruct (remove_contents_ok path m (elements (dom es)) _ _ Hp) as (n' & -> & Hn').
  exists n'. by rewrite Hn' delete_all_elements.
Qed.

(** The call answers [True] only on a directory. *)
Lemma cleanup_directory_true self dir_type st st' :
  cleanup_directory self dir_type st = (true, st') →
  ∃ path m es, get dir_type (required_dirs self) = Some path
               ∧ lookup path (fs st) = Some (Dir m es).
Proof.
  unfold cleanup_directory, exists_, iterdir.
  destruct (get dir_type (required_dirs self)) as [path|]; [|done].
  destruct (lookup path (fs st)) as [[|m es]|] eqn:Hp; try done.
  intros _. by exists path, m, es.
Qed.


End CleanupMore.

(** X4: [cleanup_directory] changes nothing but below the directory of
    the name: whatever is not strictly below it is a regular file, or a
    directory, after the call exactly when it was before. *)
Theorem cleanup_directory_frame (base_dir : FS.path) (dir_type : string)
    (st : DirectoryManager.state) (q : FS.path) :
  (∀ path, DirectoryManager.get_path (DirectoryManager.init base_dir) dir_type
           = Some path → ¬ strictly_below path q) →
  let st' := (DirectoryManager.cleanup_directory
                (DirectoryManager.init base_dir) dir_type st).2 in
  FS.is_file q (DirectoryManager.fs st') = FS.is_file q (DirectoryManager.fs st)
  ∧ FS.is_dir q (DirectoryManager.fs st') = FS.is_dir q (DirectoryManager.fs st).
Proof.
  unfold DirectoryManager.get_path, DirectoryManager.cleanup_directory,
    FS.exists_, FS.iterdir.
  intros Hq.
  destruct (DirectoryManager.get dir_type _) as [path|]; [|done].
  destruct (FS.lookup path (DirectoryManager.fs st)) as [[|m es]|]; try done.
  destruct (DirectoryManager.remove_contents path (elements (dom es))
              (DirectoryManager.fs st)) as [b n'] eqn:E.
  eapply remove_contents_frame in E; [|by apply Hq].
  by destruct b.
Qed.

Lemma cleanup_directory_frame_witness :
  let st := DirectoryManager.State
              (FS.Dir 493
                 {[ "output"%string := FS.Dir 511 {[ "a.txt"%string := FS.File ]};
                    "state_saves"%string :=
                      FS.Dir 511 {[ "s.pkl"%string := FS.File ]} ]}) [] in
  let st' := (DirectoryManager.cleanup_directory
                (DirectoryManager.init []) "output" st).2 in
  FS.is_file ["state_saves"; "s.pkl"]%string (DirectoryManager.fs st')
  = FS.is_file ["state_saves"; "s.pkl"]%string (DirectoryManager.fs st)
  ∧ FS.is_dir ["state_saves"; "s.pkl"]%string (DirectoryManager.fs st')
    = FS.is_dir ["state_saves"; "s.pkl"]%string (DirectoryManager.fs st).
Proof.
  apply (cleanup_directory_frame [] "output").
  intros path [= <-] (c & k & E). discriminate E.
Defined.



(** X6: a [cleanup_directory] that has succeeded succeeds again, and the
    second call leaves the filesystem as the first left it. *)
Theorem cleanup_directory_twice (base_dir : FS.path) (dir_type : string)
    (st st' : DirectoryManager.state) :
  DirectoryManager.cleanup_directory (DirectoryManager.init base_dir) dir_type st
  = (true, st') →
  ∃ st'', DirectoryManager.cleanup_directory
            (DirectoryManager.init base_dir) dir_type st' = (true, st'')
    ∧ DirectoryManager.fs st'' = DirectoryManager.fs st'.
Proof.
  intros E.
  destruct (cleanup_directory_true _ _ _ _ E) as (path & m & es & Hg & Hp).
  destruct (cleanup_directory_dir _ _ _ st m es Hg Hp) as (n' & E' & _ & Hn').
  rewrite E in E'. injection E' as ->.
  destruct (cleanup_directory_dir _ _ _
              (DirectoryManager.logger DirectoryManager.INFO
                 (DirectoryManager.CleanedDirectory path)
                 (DirectoryManager.State n' (DirectoryManager.log st)))
              m ∅ Hg Hn') as (n'' & -> & Hrc & _).
  eexists. split; [done|]. simpl.
  rewrite dom_empty_L elements_empty in Hrc. by injection Hrc as <-.
Qed.

Lemma cleanup_directory_twice_witness :
  ∃ st'', DirectoryManager.cleanup_directory (DirectoryManager.init []) "output"
            (DirectoryManager.State (FS.Dir 493 {[ "output"%string := FS.Dir 511 ∅ ]})
               [(DirectoryManager.INFO,
                 DirectoryManager.CleanedDirectory ["output"%string])])
          = (true, st'')
    ∧ DirectoryManager.fs st''
      = FS.Dir 493 {[ "output"%string := FS.Dir 511 ∅ ]}.
Proof.
  apply (cleanup_directory_twice [] "output"
           (DirectoryManager.State
              (FS.Dir 493
                 {[ "output"%string := FS.Dir 511 {[ "a"%string := FS.File ]} ]})
              [])).
  reflexivity.
Defined.



(** ** [ensure_file_directory] and [validate_permissions] *)

Section Checks.
Import FS DirectoryManager DirectoryChecks.
Implicit Types (p q : path) (n : node) (c : string).



Lemma parent_snoc p c : parent (p ++ [c]) = p.
Proof.
  unfold parent. rewrite length_app /=.
  replace (length p + 1 - 1) with (length p) by lia. by rewrite take_app_length.
Qed.








End Checks.





(** ** [extract_command] *)

Section Command.
Import Re.

Lemma run_literal dotall l :
  literal l →
  ∀ fuel rest st, p_set st = None →
    run (length l + fuel) dotall (l ++ rest) st
    = run fuel dotall rest (foldl push_item st (map Lit l)).
Proof.
  induction 1 as [|c l Hc _ IH]; intros fuel rest st Hset; [done|].
  cbn [length Nat.add app run map foldl]. rewrite step_plain //.
  by apply IH.
Qed.

Lemma foldl_cat_lits w base :
  foldl (λ acc r, Cat r acc) base (reverse (map Lit w)) = cat_lits w base.
Proof.
  induction w as [|c w IH]; [done|].
  cbn [map]. rewrite reverse_cons foldl_app IH. done.
Qed.

Lemma literal_fence : literal fence.
Proof. by repeat constructor. Qed.

(** The pattern of [extract_command] compiles, and to what. *)
Lemma compile_command command :
  literal command →
  compile true (PromptManager.command_pattern command)
  = Return (Pattern (command_re command) 1).
Proof.
  intros Hlit. unfold compile, PromptManager.command_pattern.
  change (lit "```") with fence. rewrite app_assoc.
  replace (S (length ((fence ++ command) ++ lit "\n(.*?)\n```")))
    with (length (fence ++ command) + 13).
  2:{ rewrite !length_app. simpl. lia. }
  rewrite run_literal //; [by apply Forall_app; split; [apply literal_fence|]|].
  change (fence ++ command) with ("`"%char :: ("`"%char :: "`"%char :: command)).
  rewrite foldl_push_lits. cbn [p_stack p_alts p_seq p_count init].
  rewrite app_nil_r. unfold command_re. rewrite -foldl_cat_lits.
  reflexivity.
Qed.

(** A search for a pattern with one group that matches, at the head of
    a text, what [here] finds there. *)
Lemma search_go_first r (here : str → option (str * str)) :
  (∀ s, match_here r false s = (λ '(c, post), (post, {[1 := c]})) <$> here s) →
  ∀ s pre,
    match search_go (Pattern r 1) false pre s with
    | Some m => group m 1 = Return (fst <$> first_suffix here s)
    | None => fst <$> first_suffix here s = None
    end.
Proof.
  intros Hhere. induction s as [|a s IH]; intros pre;
    cbn [search_go first_suffix p_re]; rewrite Hhere.
  - by destruct (here []) as [[c post]|].
  - destruct (here (a :: s)) as [[c post]|]; [done|]. apply IH.
Qed.

Lemma match_here_command command s :
  match_here (command_re command) false s
  = (λ '(c, post), (post, {[1 := c]})) <$> command_here command s.
Proof.
  unfold match_here, command_here, command_re. rewrite mt_cat_lits.
  destruct (strip_prefix (fence ++ command) s) as [[|a s3]|]; [done| |done].
  rewrite mt_Cat. cbn [mt andb]. destruct (ascii_eqb a LF); [|done].
  apply (mt_content s3 ∅).
Qed.

Lemma extract_command_eq text command :
  literal command →
  PromptManager.extract_command text command
  = Return (fst <$> first_suffix (command_here command) text).
Proof.
  intros Hlit. unfold PromptManager.extract_command, search.
  rewrite compile_command //. cbn [mbind outcome_bind mret outcome_ret].
  pose proof (search_go_first _ _ (match_here_command command) text []) as H.
  destruct (search_go _ _ _ _) as [m|]; [done | by rewrite H].
Qed.

Lemma command_here_Some command s c post :
  command_here command s = Some (c, post) →
  s = fence ++ command ++ LF :: c ++ closing ++ post
  ∧ ∀ c' post', s = fence ++ command ++ LF :: c' ++ closing ++ post' →
                length c ≤ length c'.
Proof.
  unfold command_here.
  destruct (strip_prefix (fence ++ command) s) as [[|a s3]|] eqn:E; try done.
  apply strip_prefix_Some in E as ->.
  destruct (ascii_eqb a LF) eqn:Ea; [|done]. apply ascii_eqb_eq in Ea as ->.
  intros [-> Hmin]%find_close_Some. split; [by rewrite -app_assoc|].
  intros c' post' E'. rewrite -app_assoc in E'.
  do 2 apply app_inv_head in E'. injection E' as E'. by apply Hmin in E'.
Qed.

Lemma command_here_None command s :
  command_here command s = None →
  ∀ c post, s ≠ fence ++ command ++ LF :: c ++ closing ++ post.
Proof.
  intros Hn c post ->. unfold command_here in Hn.
  rewrite app_assoc strip_prefix_app ascii_eqb_refl in Hn.
  by eapply find_close_None in Hn.
Qed.

End Command.

(** X11: for a command that [re] reads letter by letter,
    [extract_command] gives back the content of the first block whose
    opening fence is followed by the command, and nothing else, up to
    the line feed: the block that opens first and, of the closing
    fences after it, the first; without such a block it gives back
    nothing. *)
Theorem extract_command_first (text command : str) :
  literal command →
  ∃ r, PromptManager.extract_command text command = Return r
    ∧ match r with
      | Some content =>
          ∃ pre post,
            text = pre ++ fence ++ command ++ LF :: content ++ closing ++ post
            ∧ ∀ pre' content' post',
                text = pre' ++ fence ++ command ++ LF :: content' ++ closing ++ post' →
                length pre < length pre'
                ∨ (pre' = pre ∧ length content ≤ length content')
      | None =>
          ∀ pre content post,
            text ≠ pre ++ fence ++ command ++ LF :: content ++ closing ++ post
      end.
Proof.
  intros Hlit. eexists. split; [by apply extract_command_eq|].
  destruct (first_suffix (command_here command) text) as [[c post]|] eqn:E; simpl.
  - apply first_suffix_Some in E as (pre & s' & -> & Hb & Hmin).
    destruct (command_here_Some _ _ _ _ Hb) as [-> Huniq].
    exists pre, post. split; [done|].
    intros pre' c' post' E'.
    destruct (decide (length pre < length pre')) as [|Hge]; [by left|]. right.
    destruct (decide (length pre' < length pre)) as [Hlt|Hle].
    + apply (Hmin _ _ E') in Hlt. by eapply command_here_None in Hlt.
    + assert (Hlen : length pre = length pre') by lia.
      apply app_inj_1 in E' as [<- E']; [|done].
      split; [done|]. apply (Huniq c' post'). exact E'.
  - intros pre c post ->. eapply first_suffix_None in E; [|done].
    by eapply command_here_None in E.
Qed.

Lemma extract_command_first_witness :
  ∃ r, PromptManager.extract_command
         (lit "do ```SUBMIT" ++ [LF] ++ lit "x = 1" ++ [LF] ++ lit "```")
         (lit "SUBMIT") = Return r
    ∧ match r with
      | Some content =>
          ∃ pre post,
            lit "do ```SUBMIT" ++ [LF] ++ lit "x = 1" ++ [LF] ++ lit "```"
            = pre ++ fence ++ lit "SUBMIT" ++ LF :: content ++ closing ++ post
            ∧ ∀ pre' content' post',
                lit "do ```SUBMIT" ++ [LF] ++ lit "x = 1" ++ [LF] ++ lit "```"
                = pre' ++ fence ++ lit "SUBMIT" ++ LF :: content' ++ closing ++ post' →
                length pre < length pre'
                ∨ (pre' = pre ∧ length content ≤ length content')
      | None =>
          ∀ pre content post,
            lit "do ```SUBMIT" ++ [LF] ++ lit "x = 1" ++ [LF] ++ lit "```"
            ≠ pre ++ fence ++ lit "SUBMIT" ++ LF :: content ++ closing ++ post
      end.
Proof.
  apply (extract_command_first
           (lit "do ```SUBMIT" ++ [LF] ++ lit "x = 1" ++ [LF] ++ lit "```")
           (lit "SUBMIT")).
  by repeat constructor.
Defined.

(** ** [validate_response] *)

Section Response.
Import Re.

Lemma compile_literal w :
  literal w → compile true w = Return (Pattern (lits w) 0).
Proof.
  intros Hlit. unfold compile.
  replace (S (length w)) with (length w + 1) by lia.
  rewrite -{2}(app_nil_r w) run_literal //.
  destruct w as [|c l]; [done|].
  rewrite foldl_push_lits. cbn [p_stack p_alts p_seq p_count init].
  rewrite app_nil_r -mk_seq_lits. reflexivity.
Qed.

Lemma match_here_lits w s :
  match_here (lits w) false s = (λ s', (s', ∅)) <$> strip_prefix w s.
Proof.
  unfold match_here, lits. rewrite mt_cat_lits.
  by destruct (strip_prefix w s).
Qed.

End Response.

(** X12: for a pattern that [re] reads letter by letter,
    [validate_response] tells whether the response begins with the
    pattern; what comes after it in the response does not matter. *)
Theorem validate_response_literal (response pattern : str) :
  literal pattern →
  ∃ b, PromptManager.validate_response response pattern = Return b
    ∧ (b = true ↔ ∃ rest, response = pattern ++ rest).
Proof.
  intros Hlit. unfold PromptManager.validate_response, Re.match_.
  rewrite compile_literal //. cbn [mbind outcome_bind mret outcome_ret Re.p_re].
  rewrite match_here_lits. eexists. split; [done|].
  destruct (strip_prefix pattern response) as [rest|] eqn:E; simpl.
  - apply strip_prefix_Some in E. split; [by exists rest | done].
  - split; [done|]. intros [rest Hr]. apply strip_prefix_Some in Hr. congruence.
Qed.

Lemma validate_response_literal_witness :
  ∃ b, PromptManager.validate_response (lit "yes, and more") (lit "yes") = Return b
    ∧ (b = true ↔ ∃ rest, lit "yes, and more" = lit "yes" ++ rest).
Proof.
  apply (validate_response_literal (lit "yes, and more") (lit "yes")).
  by repeat constructor.
Defined.

(** ** [validate_prompt], continued *)

Section Placeholder.
Import Re.

Let P : regex :=
  Cat (Lit LT) (Cat (Plus true (Set_ true [SChar GT])) (Cat (Lit GT) Eps)).
Let notgt : ascii → bool := set_has true [SChar GT].

Lemma compile_placeholder_eq :
  compile false (lit "<[^>]+>") = Return (Pattern P 0).
Proof. reflexivity. Qed.

Lemma notgt_true c : notgt c = true ↔ c ≠ GT.
Proof.
  unfold notgt, set_has. cbn [existsb item_has xorb]. rewrite orb_false_r.
  destruct (ascii_eqb GT c) eqn:E; simpl.
  - apply ascii_eqb_eq in E. split; [done | congruence].
  - apply ascii_eqb_neq in E. split; [congruence | done].
Qed.

(** The greedy repetition of a set, before something that no character
    of the set begins, runs to the end of the characters of the set. *)
Lemma greedy_set neg items k fuel :
  (∀ a s caps, set_has neg items a = true → k (a :: s) caps = None) →
  ∀ s caps, length s < fuel →
    repeat (mt (Set_ neg items)) true k fuel s caps
    = k (skip (set_has neg items) s) caps.
Proof.
  intros Hk. induction fuel as [|fuel IH]; intros s caps Hlen; [lia|].
  cbn [repeat]. destruct s as [|a s]; [done|].
  cbn [mt skip]. destruct (set_has neg items a) eqn:Ha; [|done].
  replace (length s <? length (a :: s)) with true
    by (symmetry; apply Nat.ltb_lt; simpl; lia).
  rewrite IH; [simpl in Hlen; lia|].
  destruct (k (skip (set_has neg items) s) caps); [done|]. by apply Hk.
Qed.

Lemma skip_notgt s :
  (GT ∈ s → ∃ post, skip notgt s = GT :: post)
  ∧ (GT ∉ s → skip notgt s = []).
Proof.
  induction s as [|a s [IH1 IH2]]; [split; [by intros ?%elem_of_nil | done]|].
  cbn [skip]. destruct (notgt a) eqn:Ha.
  - apply notgt_true in Ha. split.
    + intros [?|?]%elem_of_cons; [congruence | by apply IH1].
    + intros [? ?]%not_elem_of_cons. by apply IH2.
  - assert (a = GT) as ->.
    { destruct (decide (a = GT)) as [|Hne]; [done|].
      apply notgt_true in Hne. congruence. }
    split; [by eexists|]. intros []. by left.
Qed.

(** A match at the head of [s]: the sign [<], a character that is not
    [>], and a [>] further on. *)
Lemma match_here_placeholder s :
  is_Some (match_here P false s)
  ↔ ∃ a rest, s = LT :: a :: rest ∧ a ≠ GT ∧ GT ∈ rest.
Proof.
  unfold match_here, P.
  destruct s as [|l s]; [split; [by intros [? ?] | by intros (?&?&?&_)]|].
  rewrite mt_Cat. cbn [mt].
  destruct (ascii_eqb l LT) eqn:El.
  2:{ apply ascii_eqb_neq in El. split; [by intros [? ?]|].
      intros (?&?&[= -> _]&_). done. }
  apply ascii_eqb_eq in El as ->.
  destruct s as [|a s]; [split; [by intros [? ?] | by intros (?&?&?&_)]|].
  fold (notgt a). destruct (notgt a) eqn:Ha.
  2:{ split; [by intros [? ?]|]. intros (?&?&[= <- _]&Hne&_).
      apply notgt_true in Hne. congruence. }
  rewrite greedy_set; [|lia|].
  { intros b s' caps Hb. apply notgt_true in Hb. cbn [mt].
    apply ascii_eqb_neq in Hb. by rewrite Hb. }
  apply notgt_true in Ha.
  change (skip (set_has true [SChar GT]) s) with (skip notgt s).
  destruct (skip_notgt s) as [H1 H2].
  destruct (decide (GT ∈ s)) as [Hin|Hnin].
  - destruct (H1 Hin) as [post ->]. cbn [mt andb]. rewrite ascii_eqb_refl.
    split; [|by eexists]. intros _. by exists a, s.
  - rewrite (H2 Hnin). split; [by intros [? ?]|].
    intros (?&?&[= <- <-]&_&?). done.
Qed.

Lemma search_go_is_Some p s : ∀ pre,
  is_Some (search_go p false pre s)
  ↔ ∃ k s', s = k ++ s' ∧ is_Some (match_here (p_re p) false s').
Proof.
  induction s as [|a s IH]; intros pre; cbn [search_go].
  - destruct (match_here (p_re p) false []) as [[post caps]|] eqn:E.
    + split; [|by eexists]. intros _. exists [], []. by rewrite E.
    + split; [by intros [? ?]|]. intros ([|??]&s'&Hs&Hm); [|done].
      simpl in Hs. subst. rewrite E in Hm. by destruct Hm.
  - destruct (match_here (p_re p) false (a :: s)) as [[post caps]|] eqn:E.
    + split; [|by eexists]. intros _. exists [], (a :: s). by rewrite E.
    + rewrite IH. split.
      * intros (k & s' & -> & Hm). by exists (a :: k), s'.
      * intros ([|a' k] & s' & Hs & Hm).
        -- simpl in Hs. subst. rewrite E in Hm. by destruct Hm.
        -- injection Hs as <- ->. by exists k, s'.
Qed.

(** Whether [re.search] finds a placeholder in [prompt]. *)
Lemma search_placeholder prompt :
  is_Some (search_go (Pattern P 0) false [] prompt)
  ↔ ∃ pre a rest, prompt = pre ++ LT :: a :: rest ∧ a ≠ GT ∧ GT ∈ rest.
Proof.
  rewrite search_go_is_Some. cbn [p_re]. split.
  - intros (k & s' & -> & (a & rest & -> & ? & ?)%match_here_placeholder).
    by exists k, a, rest.
  - intros (pre & a & rest & -> & ? & ?). exists pre, (LT :: a :: rest).
    split; [done|]. apply match_here_placeholder. by exists a, rest.
Qed.

(** [validate_prompt] with its pattern compiled. *)
Lemma validate_prompt_eq prompt :
  PromptManager.validate_prompt prompt
  = Return
      (let issues := [] in
       let issues :=
         if negb (count_char PromptManager.QUOTE prompt mod 2 =? 0)
         then issues ++ ["Mismatched quotes"%string] else issues in
       let issues :=
         if contains [CR; LF] prompt && contains [LF] prompt
         then issues ++ ["Mixed line endings"%string] else issues in
       let issues :=
         if existsb (λ line, 120 <? length line) (splitlines prompt)
         then issues ++ ["Lines exceed recommended length"%string] else issues in
       if bool_decide (is_Some (search_go (Pattern P 0) false [] prompt))
       then issues ++ ["Unreplaced placeholders found"%string] else issues).
Proof.
  unfold PromptManager.validate_prompt, search. by rewrite compile_placeholder_eq.
Qed.

End Placeholder.

(** X13: [validate_prompt] reports an unreplaced placeholder exactly
    when the prompt has a [<] whose next character is not [>] and that
    has a [>] somewhere after it, on the same line or not. *)
Theorem validate_prompt_placeholder (prompt : str) :
  ∃ issues, PromptManager.validate_prompt prompt = Return issues
    ∧ ("Unreplaced placeholders found"%string ∈ issues
       ↔ ∃ pre a rest, prompt = pre ++ LT :: a :: rest ∧ a ≠ GT ∧ GT ∈ rest).
Proof.
  rewrite validate_prompt_eq. eexists. split; [done|].
  rewrite -search_placeholder. cbv zeta.
  case_bool_decide as Hm.
  - split; [done|]. intros _. apply elem_of_app. right. by left.
  - split; [|done].
    repeat (match goal with |- context [if ?b then _ else _] => destruct b end);
      rewrite list_elem_of_In; simpl; intuition discriminate.
Qed.

(** X14: the issues come in the order in which they are looked for,
    each at most once: they are a sublist of the four issues.  The
    first is there exactly when the number of double quotes is odd, the
    third exactly when a line of the prompt has more than 120
    characters. *)
Theorem validate_prompt_issues (prompt : str) :
  ∃ issues, PromptManager.validate_prompt prompt = Return issues
    ∧ issues `sublist_of` all_issues
    ∧ ("Mismatched quotes"%string ∈ issues
       ↔ Nat.Odd (count_char PromptManager.QUOTE prompt))
    ∧ ("Lines exceed recommended length"%string ∈ issues
       ↔ ∃ line, line ∈ splitlines prompt ∧ 120 < length line).
Proof.
  rewrite validate_prompt_eq. eexists. split; [done|]. cbv zeta.
  assert (Hodd : negb (count_char PromptManager.QUOTE prompt mod 2 =? 0) = true
                 ↔ Nat.Odd (count_char PromptManager.QUOTE prompt)).
  { rewrite negb_true_iff Nat.eqb_neq -Nat.odd_spec.
    rewrite -Nat.negb_even. rewrite negb_true_iff.
    pose proof (Nat.even_spec (count_char PromptManager.QUOTE prompt)) as He.
    destruct (Nat.even _) eqn:E.
    - split; [|done]. intros H. exfalso. apply H.
      destruct He as [[k Hk] _]; [done|]. rewrite Hk.
      by rewrite Nat.mul_comm Nat.Div0.mod_mul.
    - split; [done|]. intros _ H0. apply Nat.Div0.mod_divides in H0 as [k Hk].
      assert (Nat.Even (count_char PromptManager.QUOTE prompt)) as Hev by by exists k.
      apply He in Hev. done. }
  assert (Hlong : existsb (λ line : str, 120 <? length line) (splitlines prompt) = true
                  ↔ ∃ line, line ∈ splitlines prompt ∧ 120 < length line).
  { rewrite existsb_exists. split.
    - intros (line & Hin & Hl). exists line.
      split; [by apply list_elem_of_In | by apply Nat.ltb_lt].
    - intros (line & Hin & Hl). exists line.
      split; [by apply list_elem_of_In | by apply Nat.ltb_lt]. }
  rewrite -Hodd -Hlong.
  split; [|split].
  - repeat (match goal with |- context [if ?b then _ else _] => destruct b end);
      cbn [app]; unfold all_issues;
      repeat first [apply sublist_nil | apply sublist_skip | apply sublist_cons].
  - repeat (match goal with |- context [if ?b then _ else _] => destruct b end);
      rewrite list_elem_of_In; simpl; intuition discriminate.
  - repeat (match goal with |- context [if ?b then _ else _] => destruct b end);
      rewrite list_elem_of_In; simpl; intuition discriminate.
Qed.

(** ** [format_error_message] *)

Section ErrorMessage.
Import Re PromptManager.

Lemma compile_file_line :
  ∃ r, compile false (lit "File " ++ [QUOTE] ++ lit ".*?" ++ [QUOTE]
                        ++ lit ", line \d+,")
       = Return (Pattern (cat_lits (lit "File ") (Cat (Lit QUOTE) r)) 0).
Proof. eexists. reflexivity. Qed.

(** A text that is single spaced has no whitespace at its ends. *)
Lemma single_spaced_strip s : single_spaced s → strip s = s.
Proof.
  intros Hs. apply strip_id.
  - intros c Hc. destruct s as [|a t]; [done|]. injection Hc as ->.
    destruct (isspace c) eqn:E; [|done].
    destruct (Hs [] c t eq_refl E) as (_ & (a & Ha & _) & _). done.
  - intros c Hc. apply last_Some in Hc as [l ->].
    destruct (isspace c) eqn:E; [|done].
    destruct (Hs l c [] eq_refl E) as (_ & _ & (b & Hb & _)). done.
Qed.

(** Without a double quote in the text the pattern matches nowhere. *)
Lemma search_go_no_quote r ma s : ∀ pre,
  QUOTE ∉ s →
  search_go (Pattern (cat_lits (lit "File ") (Cat (Lit QUOTE) r)) 0) ma pre s
  = None.
Proof.
  assert (Hm : ∀ ma s, QUOTE ∉ s →
            match_here (cat_lits (lit "File ") (Cat (Lit QUOTE) r)) ma s = None).
  { clear. intros ma s Hq. unfold match_here. rewrite mt_cat_lits.
    destruct (strip_prefix (lit "File ") s) as [s'|] eqn:E; [|done].
    apply strip_prefix_Some in E as ->. rewrite mt_Cat. cbn [mt].
    destruct s' as [|a s']; [done|]. destruct (ascii_eqb a QUOTE) eqn:Ea; [|done].
    apply ascii_eqb_eq in Ea as ->. exfalso. apply Hq.
    apply elem_of_app. right. by left. }
  revert ma. induction s as [|a s IH]; intros ma pre Hq; cbn [search_go p_re].
  - by rewrite Hm.
  - rewrite Hm //. apply not_elem_of_cons in Hq as [_ Hq]. by apply IH.
Qed.

Lemma sub_go_S fuel p repl ma s :
  sub_go (S fuel) p repl ma s
  = match search_go p ma [] s with
    | None => s
    | Some m =>
        m_pre m ++ repl
          ++ sub_go fuel p repl (bool_decide (length (m_whole m) = 0)) (m_post m)
    end.
Proof. done. Qed.

End ErrorMessage.

(** X15: [format_error_message] always gives back a message, and the
    message is single spaced: its only whitespace is single spaces
    between two other characters, so it has no line break, no tab, no
    run of spaces, and no whitespace at its ends. *)
Theorem format_error_message_single_spaced (error : str) :
  ∃ r, PromptManager.format_error_message error = Return r ∧ single_spaced r.
Proof.
  unfold PromptManager.format_error_message, Re.sub.
  destruct compile_file_line as [r ->].
  cbn [mbind outcome_bind mret outcome_ret].
  eexists. split; [done|].
  rewrite single_spaced_strip; by apply join_spaces, split_words.
Qed.

(** X16: an error message without a double quote loses no character but
    whitespace: it is the words of the message with one space between
    them. *)
Theorem format_error_message_no_quote (error : str) :
  PromptManager.QUOTE ∉ error →
  PromptManager.format_error_message error = Return (join [SP] (split error)).
Proof.
  intros Hq. unfold PromptManager.format_error_message, Re.sub.
  destruct compile_file_line as [r ->].
  cbn [mbind outcome_bind mret outcome_ret].
  replace (2 * length error + 2) with (S (2 * length error + 1)) by lia.
  rewrite sub_go_S search_go_no_quote //.
  rewrite single_spaced_strip; [by apply join_spaces, split_words | done].
Qed.

Lemma format_error_message_no_quote_witness :
  PromptManager.format_error_message (lit "  ValueError:   bad  input ")
  = Return (join [SP] (split (lit "  ValueError:   bad  input "))).
Proof.
  apply format_error_message_no_quote.
  apply (bool_decide_unpack _). by vm_compute.
Defined.

(** ** [format_feedback], continued *)

(** X17: with a negative [max_length] every feedback counts as too
    long: the last [-max_length] characters are cut off, whatever the
    length, and the ellipsis is added; a feedback of at most
    [-max_length] characters becomes the ellipsis alone. *)
Theorem format_feedback_negative (feedback : str) (max_length : Z) :
  (max_length < 0)%Z →
  PromptManager.format_feedback feedback max_length
  = strip (take (length feedback - Z.to_nat (- max_length)) feedback ++ lit "...")
  ∧ ((Z.of_nat (length feedback) ≤ - max_length)%Z →
     PromptManager.format_feedback feedback max_length = lit "...").
Proof.
  intros Hneg. unfold PromptManager.format_feedback, slice_to.
  replace (max_length <? Z.of_nat (length feedback))%Z with true
    by (symmetry; apply Z.ltb_lt; lia).
  replace (0 <=? max_length)%Z with false by (symmetry; apply Z.leb_gt; lia).
  split; [done|]. intros Hle.
  replace (length feedback - Z.to_nat (- max_length)) with 0 by lia.
  by rewrite take_0.
Qed.

Lemma format_feedback_negative_witness :
  PromptManager.format_feedback (lit "hello") (-2)
  = strip (take (length (lit "hello") - Z.to_nat (- -2)) (lit "hello") ++ lit "...")
  ∧ ((Z.of_nat (length (lit "hello")) ≤ - -2)%Z →
     PromptManager.format_feedback (lit "hello") (-2) = lit "...").
Proof. apply format_feedback_negative. lia. Defined.

(** X18: a feedback of at most [max_length] characters that has no
    whitespace at its ends comes back as it is. *)
Theorem format_feedback_unchanged (feedback : str) (max_length : Z) :
  (Z.of_nat (length feedback) ≤ max_length)%Z →
  (∀ c, head feedback = Some c → isspace c = false) →
  (∀ c, last feedback = Some c → isspace c = false) →
  PromptManager.format_feedback feedback max_length = feedback.
Proof.
  intros Hlen Hh Hl. unfold PromptManager.format_feedback.
  replace (max_length <? Z.of_nat (length feedback))%Z with false
    by (symmetry; apply Z.ltb_ge; lia).
  by apply strip_id.
Qed.

Lemma format_feedback_unchanged_witness :
  PromptManager.format_feedback (lit "well done") 20 = lit "well done".
Proof.
  apply format_feedback_unchanged; [simpl; lia | |]; by intros c [= <-].
Defined.

(** ** [build_system_prompt] *)

Lemma join_cons_concat (sep w : str) (ws : list str) :
  join sep (w :: ws) = w ++ concat (map (λ x, sep ++ x) ws).
Proof.
  revert w. induction ws as [|w' ws IH]; intros w.
  - by rewrite /= app_nil_r.
  - rewrite join_cons2 IH /=. by rewrite -app_assoc.
Qed.

(** X19: the prompt is the line of the role, a blank line, and the line
    of the task; notes, when there are any, follow after a blank line
    as the heading [Notes:] and then the notes in their order, each
    after a blank line and with [- ] before it.  No notes and an empty
    list of notes give the same prompt. *)
Theorem build_system_prompt_layout (role task : str) (notes : option (list str)) :
  PromptManager.build_system_prompt role task notes
  = lit "You are " ++ role ++ [LF; LF] ++ lit "Task instructions: " ++ task
      ++ match notes with
         | Some (n :: ns) =>
             [LF; LF] ++ lit "Notes:"
               ++ concat (map (λ note, [LF; LF] ++ lit "- " ++ note) (n :: ns))
         | _ => []
         end.
Proof.
  unfold PromptManager.build_system_prompt.
  destruct notes as [[|n ns]|].
  - cbn [join]. by rewrite app_nil_r -!app_assoc.
  - cbn [app]. rewrite join_cons_concat. cbn [map concat].
    rewrite map_map -!app_assoc. reflexivity.
  - cbn [join]. by rewrite app_nil_r -!app_assoc.
Qed.

(** ** [clean_search_query], continued *)

Lemma join_cons_length (w : str) (ws : list str) :
  length (join [SP] (w :: ws)) ≤ length w + 1 + length (join [SP] ws).
Proof.
  destruct ws as [|w' ws]; [simpl; lia|].
  rewrite join_cons2 !length_app /=. lia.
Qed.

Lemma join_split_go_length cur s :
  length (join [SP] (split_go cur s)) ≤ length cur + length s.
Proof.
  revert cur. induction s as [|a s IH]; intros cur; cbn [split_go].
  - destruct cur; [simpl; lia|]. cbn [join]. rewrite length_reverse. lia.
  - destruct (isspace a).
    + destruct cur as [|b cur]; [specialize (IH []); simpl in *; lia|].
      etrans; [apply join_cons_length|]. rewrite length_reverse.
      specialize (IH []). simpl in *. lia.
    + specialize (IH (a :: cur)). simpl in *. lia.
Qed.

(** X20: the cleaned query is never longer than the query. *)
Theorem clean_search_query_length (q : str) :
  ∃ r, PromptManager.clean_search_query q = Return r ∧ length r ≤ length q.
Proof.
  rewrite clean_search_query_eq. eexists. split; [done|].
  etrans; [apply join_split_go_length|]. simpl.
  apply length_filter.
Qed.
